(** * Layer-wise energy profiler (energy_profiler.py): model and verification

    The program measures, for every layer of a network, the energy drawn while
    the layer runs: a background thread ([power_logger]) polls the board's
    power reading into a queue while the main thread ([run_layer]) warms the
    layer up, times [NUM_REPEATS] executions, stops the thread, joins it,
    drains the queue and integrates the samples that fall into the timed
    window.  A loop over the layers collects the results and the run totals.

    Modelling decisions.
    - Python floats (time stamps, watts, energies) are exact rationals [Q]:
      rounding, overflow and NaN are outside the model.  Float division is
      kept fallible ([pydiv] raises [ZeroDivisionError] on a zero divisor).
    - The two kinds of thread are small-step machines at the granularity of
      the Python statements; a run is a list of scheduling events
      ([Tick], [Main], [Logger i src]) executed by [exec].  Every theorem
      about a run quantifies over all such event lists, that is over all
      interleavings, all clock advances and all behaviours of the power
      source.
    - [time.monotonic()] reads the field [now], which only [Tick d] with
      [0 <= d] changes.
    - The objects created by one call of [run_layer] (queue, event, thread)
      are one [session]; sessions are never removed, so a thread that is
      still running after its unit was abandoned stays visible.
    - A layer is opaque: [forward l n] tells whether its [n]-th call inside
      [run_layer] returns ([true]) or raises ([false]).
    - Fields marked "history" record what happened and are never read by
      the program.
    - Building the model (lines 16-17) is taken as done: a run starts at
      line 78 from a list of layers and the dictionary [layer_inputs].  The
      capture of the inputs by the forward hooks (lines 61-74) is modelled
      on its own ([capture]), the forward pass being the list of the calls
      of modules it makes.
    - The main thread ends at [M_export].  Of what follows, the final
      summary (lines 122-126) is [final_summary]; the CSV export and the
      plot (lines 97-120) are not modelled, the formatting of numbers being
      outside the idealisation of floats.
    - The metrics exporter (export_power.py) is [export_power], its loop
      run over the list of what the board shows at each turn. *)

From Stdlib Require Import QArith Lqa.
From stdpp Require Import gmap strings list pretty.

(** ** Exceptions and fallible results *)

Inductive exn : Type :=
| ZeroDivisionError
| JtopException
| RuntimeError.

Inductive outcome (A : Type) : Type :=
| Ok (a : A)
| Raise (e : exn).
Arguments Ok {A} a.
Arguments Raise {A} e.

Definition obind {A B} (m : outcome A) (k : A -> outcome B) : outcome B :=
  match m with
  | Ok a => k a
  | Raise e => Raise e
  end.

Notation "x <~ m ;; k" := (obind m (fun x => k))
  (at level 100, m at next level, right associativity).

(** [x / y] on Python floats. *)
Definition pydiv (x y : Q) : outcome Q :=
  if Qeq_bool y 0 then Raise ZeroDivisionError else Ok (x / y)%Q.

(** [x > y]. *)
Definition Qgt_bool (x y : Q) : bool := negb (Qle_bool x y).

(** ** Configuration (lines 11-13, and the literal 5 of line 38) *)

Definition NUM_REPEATS : nat := 100.
Definition POLL_INTERVAL : Q := 2 # 100.
Definition WARMUP : nat := 5.

(** ** The power logger thread (lines 20-27) *)

(** What the power source does when the thread touches it: [jtop()] opens
    and [jetson.stats] is the dictionary [stats], or the call raises. *)
Inductive source : Type :=
| Reading (stats : gmap string Z)
| Unavailable.

(** Line 24: [stats.get("Power TOT", 0) / 1000.0], milliwatts to watts. *)
Definition power_of (stats : gmap string Z) : Q :=
  (inject_Z (default 0%Z (stats !! "Power TOT")) / 1000)%Q.

(** A queue item [(ts, power)]. *)
Definition sample : Type := Q * Q.

Inductive logger_pc : Type :=
| L_open                    (* line 21, before [jtop()] *)
| L_test                    (* line 22, connection open *)
| L_read                    (* lines 23-24 *)
| L_stamp (power : Q)       (* line 25 *)
| L_put (ts power : Q)      (* line 26 *)
| L_nap                     (* line 27, before the call of sleep *)
| L_sleep (wake : Q)        (* line 27, asleep until [wake] *)
| L_exit                    (* loop left, connection closed, thread over *)
| L_open_failed             (* [jtop()] raised: thread over *)
| L_read_failed.            (* [jetson.stats] raised: [with] closed the
                               connection, thread over *)

Record session : Type := Session {
  stop_event : bool;
  power_q : list sample;          (* head = oldest item *)
  logger : logger_pc;
  enqueued : list sample          (* history: every item ever put *)
}.

Definition fresh_session : session :=
  {| stop_event := false; power_q := []; logger := L_open; enqueued := [] |}.

Definition at_pc (p : logger_pc) (ses : session) : session :=
  {| stop_event := stop_event ses; power_q := power_q ses;
     logger := p; enqueued := enqueued ses |}.

Definition put (x : sample) (ses : session) : session :=
  {| stop_event := stop_event ses; power_q := power_q ses ++ [x];
     logger := logger ses; enqueued := enqueued ses ++ [x] |}.

Definition set_stop (ses : session) : session :=
  {| stop_event := true; power_q := power_q ses;
     logger := logger ses; enqueued := enqueued ses |}.

Definition with_queue (q : list sample) (ses : session) : session :=
  {| stop_event := stop_event ses; power_q := q;
     logger := logger ses; enqueued := enqueued ses |}.

(** The thread is over (what [join] waits for). *)
Definition terminated (p : logger_pc) : bool :=
  match p with
  | L_exit | L_open_failed | L_read_failed => true
  | _ => false
  end.

(** The thread is inside [with jtop() as jetson]. *)
Definition connected (p : logger_pc) : bool :=
  match p with
  | L_test | L_read | L_stamp _ | L_put _ _ | L_nap | L_sleep _ => true
  | _ => false
  end.

(** One statement of [power_logger]; [None] when the thread cannot move
    (asleep, or over). *)
Definition logger_step (now : Q) (src : source) (ses : session)
  : option session :=
  match logger ses with
  | L_open =>
      match src with
      | Reading _ => Some (at_pc L_test ses)
      | Unavailable => Some (at_pc L_open_failed ses)
      end
  | L_test =>
      if stop_event ses then Some (at_pc L_exit ses)
      else Some (at_pc L_read ses)
  | L_read =>
      match src with
      | Reading stats => Some (at_pc (L_stamp (power_of stats)) ses)
      | Unavailable => Some (at_pc L_read_failed ses)
      end
  | L_stamp power => Some (at_pc (L_put now power) ses)
  | L_put ts power => Some (at_pc L_nap (put (ts, power) ses))
  | L_nap => Some (at_pc (L_sleep (now + POLL_INTERVAL)%Q) ses)
  | L_sleep wake =>
      if Qle_bool wake now then Some (at_pc L_test ses) else None
  | L_exit | L_open_failed | L_read_failed => None
  end.

(** ** Aggregation (lines 50-59) *)

(** [start <= t <= end]. *)
Definition in_window (start end_ t : Q) : bool :=
  Qle_bool start t && Qle_bool t end_.

(** Lines 53-55: the body of the drain loop on the item just taken. *)
Definition keep (start end_ : Q) (samples : list Q) (x : sample) : list Q :=
  if in_window start end_ (fst x) then samples ++ [snd x] else samples.

(** Lines 52-55 run to the end on a queue that no one else touches. *)
Fixpoint drain (start end_ : Q) (q : list sample) (samples : list Q)
  : list Q :=
  match q with
  | [] => samples
  | x :: q' => drain start end_ q' (keep start end_ samples x)
  end.

(** [sum(samples)]: left to right from 0. *)
Definition pysum (l : list Q) : Q := fold_left Qplus l 0%Q.

Record measurement : Type := Measurement {
  duration : Q;
  energy : Q;
  avg_power : Q;
  samples : list Q
}.

(** Lines 50, 56-59. *)
Definition summarize (start end_ : Q) (samples : list Q)
  : outcome measurement :=
  let duration := (end_ - start)%Q in
  let energy := (pysum samples * POLL_INTERVAL)%Q in
  avg_power <~ (if Qgt_bool duration 0 then pydiv energy duration
                else Ok 0%Q) ;;
  Ok {| duration := duration; energy := energy;
        avg_power := avg_power; samples := samples |}.

(** Lines 50-59 on the whole content of the queue. *)
Definition aggregate (start end_ : Q) (q : list sample)
  : outcome measurement :=
  summarize start end_ (drain start end_ q []).

(** ** The main thread: the loop over the layers (lines 76-95) and
       [run_layer] (lines 30-48) *)

(** A captured input tensor; its content plays no role. *)
Definition tensor : Type := nat.

Record layer : Type := Layer {
  class_name : string;          (* [layer.__class__.__name__] *)
  layer_id : nat;               (* the module object, key of [layer_inputs] *)
  forward : nat -> bool         (* [forward n]: the n-th call returns *)
}.

(** The locals of one call of [run_layer] that do not change: the layer, the
    name printed for it, and the session holding [power_q], [stop_event] and
    [power_thread]. *)
Record job : Type := Job {
  job_layer : layer;
  job_name : string;
  job_input : tensor;
  job_session : nat
}.

Inductive main_pc : Type :=
| M_loop                                         (* line 82 *)
| M_warmup (j : job) (k : nat)                   (* line 39, k calls done *)
| M_start (j : job)                              (* line 41 *)
| M_timed (j : job) (start : Q) (k : nat)        (* line 44, k calls done *)
| M_end (j : job) (start : Q)                    (* line 45 *)
| M_stop (j : job) (start end_ : Q)              (* line 47 *)
| M_join (j : job) (start end_ : Q)              (* line 48 *)
| M_drain (j : job) (start end_ : Q) (samples : list Q)   (* lines 52-55 *)
| M_export.                                      (* line 97: the loop is over *)

(** What the main thread did inside [run_layer], with the clock value. *)
Inductive action : Type := Call | Start | End_.

Inductive line : Type :=
| Printed_skip (name : string)                   (* line 86 *)
| Printed_unit (name : string) (m : measurement) (* line 93 *)
| Printed_fail (name : string) (e : exn).        (* line 95 *)

Record state : Type := State {
  now : Q;                                  (* the monotonic clock *)
  layer_inputs : gmap nat tensor;           (* line 62, filled by the hooks *)
  sessions : list session;
  pc : main_pc;
  pending : list layer;                     (* the layers not yet visited *)
  index : nat;                              (* [i] of the next layer *)
  results : list (string * measurement);
  total_energy : Q;
  total_duration : Q;
  stdout : list line;
  timeline : list (action * Q);             (* history of the current unit *)
  measured : list (nat * Q * Q)             (* history: the session and the
                                               window of each result *)
}.

Definition goto (p : main_pc) (s : state) : state :=
  {| now := now s; layer_inputs := layer_inputs s; sessions := sessions s;
     pc := p; pending := pending s; index := index s; results := results s;
     total_energy := total_energy s; total_duration := total_duration s;
     stdout := stdout s; timeline := timeline s;
     measured := measured s |}.

Definition with_sessions (l : list session) (s : state) : state :=
  {| now := now s; layer_inputs := layer_inputs s; sessions := l;
     pc := pc s; pending := pending s; index := index s; results := results s;
     total_energy := total_energy s; total_duration := total_duration s;
     stdout := stdout s; timeline := timeline s;
     measured := measured s |}.

Definition print (x : line) (s : state) : state :=
  {| now := now s; layer_inputs := layer_inputs s; sessions := sessions s;
     pc := pc s; pending := pending s; index := index s; results := results s;
     total_energy := total_energy s; total_duration := total_duration s;
     stdout := stdout s ++ [x]; timeline := timeline s;
     measured := measured s |}.

Definition note (a : action) (s : state) : state :=
  {| now := now s; layer_inputs := layer_inputs s; sessions := sessions s;
     pc := pc s; pending := pending s; index := index s; results := results s;
     total_energy := total_energy s; total_duration := total_duration s;
     stdout := stdout s; timeline := timeline s ++ [(a, now s)];
     measured := measured s |}.

(** Line 82: take the next layer. *)
Definition advance (rest : list layer) (s : state) : state :=
  {| now := now s; layer_inputs := layer_inputs s; sessions := sessions s;
     pc := pc s; pending := rest; index := S (index s); results := results s;
     total_energy := total_energy s; total_duration := total_duration s;
     stdout := stdout s; timeline := [];
     measured := measured s |}.

(** Lines 90-93. *)
Definition record (j : job) (start end_ : Q) (m : measurement) (s : state)
  : state :=
  {| now := now s; layer_inputs := layer_inputs s; sessions := sessions s;
     pc := M_loop; pending := pending s; index := index s;
     results := results s ++ [(job_name j, m)];
     total_energy := (total_energy s + energy m)%Q;
     total_duration := (total_duration s + duration m)%Q;
     stdout := stdout s ++ [Printed_unit (job_name j) m];
     timeline := timeline s;
     measured := measured s ++ [(job_session j, start, end_)] |}.

(** Lines 94-95. *)
Definition fail (name : string) (e : exn) (s : state) : state :=
  goto M_loop (print (Printed_fail name e) s).

(** The head of the loop of line 38 after [k] calls. *)
Definition after_warmup (j : job) (k : nat) : main_pc :=
  if (k <? WARMUP)%nat then M_warmup j k else M_start j.

(** The head of the loop of line 43 after [k] calls. *)
Definition after_timed (j : job) (start : Q) (k : nat) : main_pc :=
  if (k <? NUM_REPEATS)%nat then M_timed j start k else M_end j start.

Arguments after_warmup : simpl never.
Arguments after_timed : simpl never.

(** Line 83: [f"{layer.__class__.__name__}_{i}"]. *)
Definition name_of (i : nat) (l : layer) : string :=
  class_name l +:+ "_" +:+ pretty i.

(** [_ = layer(input_tensor)], the [n]-th call of this [run_layer]. *)
Definition call (j : job) (n : nat) (next : main_pc) (s : state) : state :=
  if forward (job_layer j) n then goto next (note Call s)
  else fail (job_name j) RuntimeError s.

(** One statement of the main thread; [None] when it cannot move (blocked
    in [join], or past the loop). *)
Definition main_step (s : state) : option state :=
  match pc s with
  | M_loop =>
      match pending s with
      | [] => Some (goto M_export s)
      | l :: rest =>
          let name := name_of (index s) l in
          match layer_inputs s !! layer_id l with
          | None =>                                        (* lines 85-87 *)
              Some (print (Printed_skip name) (advance rest s))
          | Some x =>                             (* lines 89, 31-34 *)
              let j := {| job_layer := l; job_name := name; job_input := x;
                          job_session := length (sessions s) |} in
              Some (goto (after_warmup j 0)
                      (with_sessions (sessions s ++ [fresh_session])
                         (advance rest s)))
          end
      end
  | M_warmup j k => Some (call j k (after_warmup j (S k)) s)
  | M_start j => Some (goto (after_timed j (now s) 0) (note Start s))
  | M_timed j start k =>
      Some (call j (WARMUP + k) (after_timed j start (S k)) s)
  | M_end j start => Some (goto (M_stop j start (now s)) (note End_ s))
  | M_stop j start end_ =>
      ses ← sessions s !! job_session j;
      Some (goto (M_join j start end_)
              (with_sessions (<[job_session j := set_stop ses]> (sessions s))
                 s))
  | M_join j start end_ =>
      ses ← sessions s !! job_session j;
      if terminated (logger ses) then Some (goto (M_drain j start end_ []) s)
      else None
  | M_drain j start end_ samples =>
      ses ← sessions s !! job_session j;
      match power_q ses with
      | x :: q =>
          Some (goto (M_drain j start end_ (keep start end_ samples x))
                  (with_sessions
                     (<[job_session j := with_queue q ses]> (sessions s)) s))
      | [] =>
          match summarize start end_ samples with
          | Ok m => Some (record j start end_ m s)
          | Raise e => Some (fail (job_name j) e s)
          end
      end
  | M_export => None
  end.

(** ** Runs *)

Inductive event : Type :=
| Tick (d : Q)                      (* the clock advances by [d] *)
| Main                              (* the main thread runs one statement *)
| Logger (i : nat) (src : source).  (* the thread of session [i] runs one
                                       statement, the source behaving as
                                       [src] if the statement touches it *)

Definition step (ev : event) (s : state) : option state :=
  match ev with
  | Tick d =>
      if Qle_bool 0 d then
        Some {| now := (now s + d)%Q; layer_inputs := layer_inputs s;
                sessions := sessions s; pc := pc s; pending := pending s;
                index := index s; results := results s;
                total_energy := total_energy s;
                total_duration := total_duration s;
                stdout := stdout s; timeline := timeline s;
                measured := measured s |}
      else None
  | Main => main_step s
  | Logger i src =>
      ses ← sessions s !! i;
      ses' ← logger_step (now s) src ses;
      Some (with_sessions (<[i := ses']> (sessions s)) s)
  end.

Fixpoint exec (tr : list event) (s : state) : option state :=
  match tr with
  | [] => Some s
  | ev :: tr' => s' ← step ev s; exec tr' s'
  end.

(** The state at line 82, before the first layer: lines 78-80. *)
Definition init (inputs : gmap nat tensor) (layers : list layer) (t0 : Q)
  : state :=
  {| now := t0; layer_inputs := inputs; sessions := []; pc := M_loop;
     pending := layers; index := 0; results := [];
     total_energy := 0%Q; total_duration := 0%Q; stdout := [];
     timeline := []; measured := [] |}.

(** [s] is a state of some run over [layers]. *)
Definition reachable (inputs : gmap nat tensor) (layers : list layer)
  (s : state) : Prop :=
  exists t0 tr, exec tr (init inputs layers t0) = Some s.

(** The number of threads inside [with jtop()]. *)
Definition connections (s : state) : nat :=
  length (filter (fun ses => connected (logger ses) = true) (sessions s)).

(** ** Vocabulary of the statements *)

(** The watts of the items of [q] whose time stamp lies in the window, in
    queue order. *)
Definition selected (start end_ : Q) (q : list sample) : list Q :=
  map snd (List.filter (fun x => in_window start end_ (fst x)) q).

(** The window of a main thread that is past line 45. *)
Definition window_of (p : main_pc) : option (job * Q * Q) :=
  match p with
  | M_stop j start end_ | M_join j start end_ | M_drain j start end_ _ =>
      Some (j, start, end_)
  | _ => None
  end.

(** [Call] actions at the given clock values. *)
Definition calls (ts : list Q) : list (action * Q) := map (pair Call) ts.

(** The main thread's history of a unit after [k] warm-up calls. *)
Definition warming (tl : list (action * Q)) (k : nat) (now : Q) : Prop :=
  exists tw, tl = calls tw /\ length tw = k /\ Forall (fun t => t <= now)%Q tw.

(** ... after the warm-up, the reading of [start] and [k] timed calls. *)
Definition timing (tl : list (action * Q)) (start : Q) (k : nat) (now : Q)
  : Prop :=
  exists tw tt,
    tl = calls tw ++ (Start, start) :: calls tt
    /\ length tw = WARMUP /\ length tt = k
    /\ Forall (fun t => t <= start)%Q tw
    /\ Forall (fun t => start <= t /\ t <= now)%Q tt
    /\ (start <= now)%Q.

(** ... of a whole timed unit with window [start, end_]. *)
Definition timed_unit (tl : list (action * Q)) (start end_ : Q) : Prop :=
  exists tw tt,
    tl = calls tw ++ (Start, start) :: calls tt ++ [(End_, end_)]
    /\ length tw = WARMUP /\ length tt = NUM_REPEATS
    /\ Forall (fun t => t <= start)%Q tw
    /\ Forall (fun t => start <= t /\ t <= end_)%Q tt
    /\ (start <= end_)%Q.

(** The layer completes all the calls of one [run_layer]. *)
Definition completes (l : layer) : bool :=
  forallb (forward l) (seq 0 (WARMUP + NUM_REPEATS)).

Inductive fate : Type := Skipped | Failed | Measured.

Definition fate_eqb (a b : fate) : bool :=
  match a, b with
  | Skipped, Skipped | Failed, Failed | Measured, Measured => true
  | _, _ => false
  end.

Definition fate_of (inputs : gmap nat tensor) (l : layer) : fate :=
  match inputs !! layer_id l with
  | None => Skipped
  | Some _ => if completes l then Measured else Failed
  end.

(** The printed name and the fate of each layer, numbered from [i]. *)
Fixpoint verdicts (inputs : gmap nat tensor) (i : nat) (layers : list layer)
  : list (string * fate) :=
  match layers with
  | [] => []
  | l :: rest => (name_of i l, fate_of inputs l) :: verdicts inputs (S i) rest
  end.

Definition with_fate (f : fate) (v : list (string * fate)) : list string :=
  map fst (List.filter (fun x => fate_eqb (snd x) f) v).

(** What a printed line says about its layer. *)
Definition verdict (x : line) : string * fate :=
  match x with
  | Printed_skip name => (name, Skipped)
  | Printed_unit name _ => (name, Measured)
  | Printed_fail name _ => (name, Failed)
  end.

(** The job of a main thread inside [run_layer], and the number of calls of
    the layer that have returned. *)
Definition progress (p : main_pc) : option (job * nat) :=
  match p with
  | M_loop | M_export => None
  | M_warmup j k => Some (j, k)
  | M_start j => Some (j, WARMUP)
  | M_timed j _ k => Some (j, WARMUP + k)
  | M_end j _ | M_stop j _ _ | M_join j _ _ | M_drain j _ _ _ =>
      Some (j, WARMUP + NUM_REPEATS)
  end.

(** ** Invariants of a run *)

Definition timeline_inv (s : state) : Prop :=
  match pc s with
  | M_loop | M_export => True
  | M_warmup _ k => k < WARMUP /\ warming (timeline s) k (now s)
  | M_start _ => warming (timeline s) WARMUP (now s)
  | M_timed _ start k =>
      k < NUM_REPEATS /\ timing (timeline s) start k (now s)
  | M_end _ start => timing (timeline s) start NUM_REPEATS (now s)
  | M_stop _ start end_ | M_join _ start end_ | M_drain _ start end_ _ =>
      timed_unit (timeline s) start end_
  end.

(** The session of the unit being measured: before the drain nothing has
    been taken from its queue; during the drain its thread is over and the
    history splits into what the loop has seen and what is still queued. *)
Definition session_inv (s : state) : Prop :=
  match pc s with
  | M_loop | M_export => True
  | M_warmup j _ | M_start j | M_timed j _ _ | M_end j _ | M_stop j _ _ =>
      exists ses, sessions s !! job_session j = Some ses
        /\ enqueued ses = power_q ses
  | M_join j _ _ =>
      exists ses, sessions s !! job_session j = Some ses
        /\ enqueued ses = power_q ses /\ stop_event ses = true
  | M_drain j start end_ acc =>
      exists ses got, sessions s !! job_session j = Some ses
        /\ terminated (logger ses) = true
        /\ enqueued ses = got ++ power_q ses
        /\ acc = selected start end_ got
  end.

(** A result and the session and window it was computed from. *)
Definition recorded (s : state) (r : string * measurement) (w : nat * Q * Q)
  : Prop :=
  exists ses, sessions s !! w.1.1 = Some ses
    /\ terminated (logger ses) = true
    /\ power_q ses = []
    /\ (w.1.2 <= w.2)%Q
    /\ aggregate w.1.2 w.2 (enqueued ses) = Ok r.2.

Definition results_inv (s : state) : Prop :=
  Forall2 (recorded s) (results s) (measured s)
  /\ total_energy s = pysum (map (fun r => energy r.2) (results s))
  /\ total_duration s = pysum (map (fun r => duration r.2) (results s)).

(** A thread that has not opened the source has enqueued nothing. *)
Definition unopened_inv (s : state) : Prop :=
  Forall (fun ses => logger ses = L_open \/ logger ses = L_open_failed ->
                     enqueued ses = [])
    (sessions s).

(** The loop has dealt with a prefix [done] of the layers; the printed lines
    and the results are those of [done]. *)
Definition account_inv (inputs : gmap nat tensor) (layers : list layer)
  (s : state) : Prop :=
  layer_inputs s = inputs
  /\ exists done,
      map verdict (stdout s) = verdicts inputs 0 done
      /\ map fst (results s) = with_fate Measured (verdicts inputs 0 done)
      /\ match progress (pc s) with
         | None =>
             layers = done ++ pending s
             /\ index s = length done
             /\ (pc s = M_export -> pending s = [])
         | Some (j, n) =>
             layers = done ++ job_layer j :: pending s
             /\ index s = S (length done)
             /\ job_name j = name_of (length done) (job_layer j)
             /\ is_Some (inputs !! layer_id (job_layer j))
             /\ forall m, m < n -> forward (job_layer j) m = true
         end.

(** No printed line reports a failed unit. *)
Definition no_failure (out : list line) : Prop :=
  forall name e, Printed_fail name e ∉ out.

(** As long as no unit has failed, every thread that is not over belongs to
    the unit being measured. *)
Definition tidy_inv (s : state) : Prop :=
  no_failure (stdout s) ->
  forall i ses,
    sessions s !! i = Some ses -> terminated (logger ses) = false ->
    exists j n, progress (pc s) = Some (j, n) /\ job_session j = i.

(** All the invariants. *)
Definition run_inv (inputs : gmap nat tensor) (layers : list layer)
  (s : state) : Prop :=
  timeline_inv s /\ session_inv s /\ results_inv s /\ unopened_inv s
  /\ account_inv inputs layers s /\ tidy_inv s.

(** ** Sample runs *)

Definition conv : layer :=
  {| class_name := "Conv2d"; layer_id := 0; forward := fun _ => true |}.

Definition relu : layer :=
  {| class_name := "ReLU"; layer_id := 1; forward := fun _ => true |}.

(** A layer whose third call raises. *)
Definition broken : layer :=
  {| class_name := "Conv2d"; layer_id := 0; forward := fun n => n <? 2 |}.

Definition both_captured : gmap nat tensor := {[ 0 := 7; 1 := 8 ]}.

(** The board draws 5000 mW. *)
Definition five_watts : source := Reading {[ "Power TOT" := 5000%Z ]}.

(** One turn of the logger's loop from line 22: the sample is put, then
    20 ms pass and the thread wakes up. *)
Definition poll (i : nat) : list event :=
  repeat (Logger i five_watts) 5 ++ [Tick (2 # 100); Logger i five_watts].

(** A unit up to line 45: the thread opens the source, the main thread warms
    up, reads [start], and makes its calls while two samples are taken. *)
Definition timed_run (i : nat) : list event :=
  [Main; Logger i five_watts] ++ repeat Main (WARMUP + 1)
  ++ poll i ++ repeat Main 50 ++ poll i ++ repeat Main 51.

(** Lines 47-48: stop, the thread sees the flag and returns, join. *)
Definition teardown (i : nat) : list event :=
  [Main; Logger i five_watts; Main].

(** Lines 52-59 and 90-93 on a queue of two items. *)
Definition collect : list event := repeat Main 3.

Definition unit_run (i : nat) : list event :=
  timed_run i ++ teardown i ++ collect.

(** A unit whose thread cannot open the source; the timed calls take
    40 ms. *)
Definition blind_run (i : nat) : list event :=
  [Main; Logger i Unavailable] ++ repeat Main (WARMUP + 1)
  ++ [Tick (4 # 100)] ++ repeat Main (NUM_REPEATS + 1 + 3).

(** A unit during which the clock reading does not change: one sample is
    taken after [start] was read, and the clock advances only after [end]
    was read. *)
Definition instant_run (i : nat) : list event :=
  [Main; Logger i five_watts] ++ repeat Main (WARMUP + 1)
  ++ repeat (Logger i five_watts) 5 ++ repeat Main (NUM_REPEATS + 2)
  ++ [Tick (2 # 100); Logger i five_watts; Logger i five_watts]
  ++ repeat Main 3.

Definition run_of (inputs : gmap nat tensor) (layers : list layer)
  (tr : list event) : state :=
  default (init inputs layers 0) (exec tr (init inputs layers 0)).

(** Both layers measured, the loop over. *)
Definition full_trace : list event := unit_run 0 ++ unit_run 1 ++ [Main].
Definition full_state : state := run_of both_captured [conv; relu] full_trace.

(** The first unit just after line 45, and just after line 48. *)
Definition timed_state : state :=
  run_of both_captured [conv; relu] (timed_run 0).
Definition joined_state : state :=
  run_of both_captured [conv; relu] (timed_run 0 ++ teardown 0).

(** The source never opens. *)
Definition blind_trace : list event := blind_run 0 ++ blind_run 1 ++ [Main].
Definition blind_state : state :=
  run_of both_captured [conv; relu] blind_trace.

(** The clock stands still during the first unit. *)
Definition instant_state : state :=
  run_of both_captured [conv; relu] (instant_run 0).

(** The first thread is about to read the source. *)
Definition reading_state : state :=
  run_of both_captured [conv; relu]
    [Main; Logger 0 five_watts; Logger 0 five_watts].


(** The first layer raises in its warm-up; the next unit starts. *)
Definition leaking_trace : list event :=
  [Main; Logger 0 five_watts; Main; Main; Main; Main; Logger 1 five_watts].
Definition leaking_state : state :=
  run_of both_captured [broken; relu] leaking_trace.

(** ** Capturing the layer inputs (lines 61-74) *)

(** Line 65, the hook: [layer_inputs[module] = input[0].detach()]; [None]
    when the tuple [input] is empty ([input[0]] raises). *)
Definition save_input (module : nat) (input : list tensor)
  (captured : gmap nat tensor) : option (gmap nat tensor) :=
  x ← head input; Some (<[module := x]> captured).

(** Lines 69-70 register one hook per item of [layers]: a module that occurs
    [n] times in the list carries [n] hooks. *)
Definition hooks_on (layers : list layer) (module : nat) : nat :=
  length (filter (fun l => layer_id l = module) layers).

(** A call of a module runs its hooks one after the other. *)
Fixpoint run_hooks (n : nat) (module : nat) (input : list tensor)
  (captured : gmap nat tensor) : option (gmap nat tensor) :=
  match n with
  | 0 => Some captured
  | S n' =>
      captured' ← save_input module input captured;
      run_hooks n' module input captured'
  end.

(** Line 72: the forward pass [model(x)], given as the calls of modules it
    makes, in order, each with its positional inputs. *)
Fixpoint capture (layers : list layer) (calls : list (nat * list tensor))
  (captured : gmap nat tensor) : option (gmap nat tensor) :=
  match calls with
  | [] => Some captured
  | (module, input) :: rest =>
      captured' ← run_hooks (hooks_on layers module) module input captured;
      capture layers rest captured'
  end.

(** The first input of the last call of [module]. *)
Fixpoint last_input (calls : list (nat * list tensor)) (module : nat)
  : option tensor :=
  match calls with
  | [] => None
  | (m, input) :: rest =>
      match last_input rest module with
      | Some x => Some x
      | None => if decide (m = module) then head input else None
      end
  end.

(** ** The final summary (lines 122-126) *)

Inductive average : Type :=
| Average (watts : Q)       (* [f"Avg Total Power: {...:.2f} W"] *)
| Not_available.            (* ["N/A"] *)

(** What lines 124-126 print: the two totals and the overall average. *)
Definition final_summary (s : state) : outcome (Q * Q * average) :=
  a <~ (if Qgt_bool (total_duration s) 0
        then (q <~ pydiv (total_energy s) (total_duration s) ;;
              Ok (Average q))
        else Ok Not_available) ;;
  Ok (total_duration s, total_energy s, a).

(** ** The metrics exporter (export_power.py, lines 7-13) *)

(** One turn of the loop of line 9 as the exporter sees the board:
    [jetson.ok()] and, if the loop goes on, [jetson.stats]. *)
Definition observation : Type := bool * gmap string Z.

(** The value of the gauge after the loop has run over the observations
    made; the loop ends at the first one whose [ok] is false. *)
Fixpoint export_power (obs : list observation) (gauge : Q) : Q :=
  match obs with
  | [] => gauge
  | (ok, stats) :: rest =>
      if ok then export_power rest (power_of stats) else gauge
  end.

(** ** Vocabulary of the further properties *)

(** Time stamps from [lo] on, each at least a polling interval after the
    one before. *)
Fixpoint chain (lo : Q) (l : list sample) : Prop :=
  match l with
  | [] => True
  | x :: l' => (lo <= x.1)%Q /\ chain (x.1 + POLL_INTERVAL)%Q l'
  end.

(** The next time stamp of a session will be at least [t]. *)
Definition next_stamp_from (ses : session) (t : Q) : Prop :=
  forall x, last (enqueued ses) = Some x -> (x.1 + POLL_INTERVAL <= t)%Q.

(** The time stamps of a session are spaced and not in the future; where the
    thread stands tells how far the next one is. *)
Definition spaced (now : Q) (ses : session) : Prop :=
  (exists lo, chain lo (enqueued ses))
  /\ Forall (fun x => x.1 <= now)%Q (enqueued ses)
  /\ match logger ses with
     | L_open | L_test | L_read | L_stamp _ => next_stamp_from ses now
     | L_put ts _ => (ts <= now)%Q /\ next_stamp_from ses ts
     | L_sleep wake => next_stamp_from ses wake
     | _ => True
     end.

(** [n] as a rational. *)
Definition of_nat (n : nat) : Q := inject_Z (Z.of_nat n).

(** The source reports no negative power. *)
Definition never_negative (src : source) : Prop :=
  match src with
  | Reading stats => (0 <= default 0 (stats !! "Power TOT"))%Z
  | Unavailable => True
  end.

(** The events of a run in which every behaviour of the source is [good]. *)
Definition sources (good : source -> Prop) (ev : event) : Prop :=
  match ev with
  | Logger _ src => good src
  | _ => True
  end.

(** No watts below 0 in the history of a session or on their way into it. *)
Definition watts_not_negative (now : Q) (ses : session) : Prop :=
  Forall (fun x => 0 <= x.2)%Q (enqueued ses)
  /\ match logger ses with
     | L_stamp p | L_put _ p => (0 <= p)%Q
     | _ => True
     end.

(** The timed windows lie one after the other between the start of the run
    at [t0] and now. *)
Definition elapsed_inv (t0 : Q) (s : state) : Prop :=
  (0 <= total_duration s)%Q
  /\ match pc s with
     | M_timed _ start _ | M_end _ start =>
         (t0 + total_duration s <= start /\ start <= now s)%Q
     | M_stop _ start end_ | M_join _ start end_ | M_drain _ start end_ _ =>
         (t0 + total_duration s <= start /\ start <= end_ /\ end_ <= now s)%Q
     | _ => (t0 + total_duration s <= now s)%Q
     end.

(** The session is the one the main thread is stopping or draining, or the
    one of a recorded result. *)
Definition unit_completed (s : state) (i : nat) : Prop :=
  (exists j start end_,
      (pc s = M_join j start end_
       \/ exists acc, pc s = M_drain j start end_ acc)
      /\ job_session j = i)
  \/ (exists k start end_, measured s !! k = Some (i, start, end_)).

(** A thread returns only when told to stop, and only the main thread of a
    unit that has made all its calls tells it so. *)
Definition stop_inv (s : state) : Prop :=
  forall i ses,
    sessions s !! i = Some ses ->
    (logger ses = L_exit -> stop_event ses = true)
    /\ (stop_event ses = true -> unit_completed s i).

(** How many more samples a thread that is told to stop can still put. *)
Definition in_flight (p : logger_pc) : nat :=
  match p with
  | L_read | L_stamp _ | L_put _ _ => 1
  | _ => 0
  end.

(** The statements that take a thread told to stop to its end, the source
    behaving as [src] throughout: at most one trip through the loop body,
    the passing of the time it sleeps, and the test of line 22. *)
Definition wind_down (i : nat) (src : source) (now : Q) (p : logger_pc)
  : list event :=
  let nap := [Logger i src; Tick POLL_INTERVAL; Logger i src; Logger i src] in
  match p with
  | L_open =>
      match src with
      | Reading _ => [Logger i src; Logger i src]
      | Unavailable => [Logger i src]
      end
  | L_test => [Logger i src]
  | L_read =>
      match src with
      | Reading _ => [Logger i src; Logger i src; Logger i src] ++ nap
      | Unavailable => [Logger i src]
      end
  | L_stamp _ => [Logger i src; Logger i src] ++ nap
  | L_put _ _ => [Logger i src] ++ nap
  | L_nap => nap
  | L_sleep wake =>
      [Tick (if Qle_bool wake now then 0 else wake - now)%Q;
       Logger i src; Logger i src]
  | L_exit | L_open_failed | L_read_failed => []
  end.

(** One statement of the thread of a session, or the passing of time, seen
    from the session alone: the clock and the session afterwards. *)
Definition thread_step (ev : event) (t : Q) (ses : session)
  : option (Q * session) :=
  match ev with
  | Tick d => if Qle_bool 0 d then Some ((t + d)%Q, ses) else None
  | Logger _ src => ses' ← logger_step t src ses; Some (t, ses')
  | Main => None
  end.

Fixpoint thread_exec (tr : list event) (t : Q) (ses : session)
  : option (Q * session) :=
  match tr with
  | [] => Some (t, ses)
  | ev :: tr' => x ← thread_step ev t ses; thread_exec tr' x.1 x.2
  end.

(** The event is the passing of time or a statement of thread [i]. *)
Definition concerns (i : nat) (ev : event) : Prop :=
  match ev with
  | Tick _ => True
  | Logger k _ => k = i
  | Main => False
  end.

(** A string without an underscore, as the decimal numeral of line 83 is. *)
Fixpoint plain (s : string) : Prop :=
  match s with
  | EmptyString => True
  | String a s' => String a EmptyString <> "_" /\ plain s'
  end.

(** The names on the printed lines, oldest or newest first as [stdout] has
    them. *)
Definition printed_names (s : state) : list string :=
  map (fun x => (verdict x).1) (stdout s).

(** How the power source behaves at a statement of thread [i], given the
    events that came before: it may differ from unit to unit and from one
    statement to the next. *)
Definition behaviour : Type := list event -> nat -> source.

(** The events [tr], run after [past], find the source as [b] makes it. *)
Fixpoint follows (b : behaviour) (past tr : list event) : Prop :=
  match tr with
  | [] => True
  | ev :: tr' =>
      match ev with
      | Logger i src => src = b past i
      | _ => True
      end
      /\ follows b (past ++ [ev]) tr'
  end.

(** The events [tr] with the source as [b] makes it. *)
Fixpoint relabel (b : behaviour) (past tr : list event) : list event :=
  match tr with
  | [] => []
  | ev :: tr' =>
      let ev' := match ev with
                 | Logger i _ => Logger i (b past i)
                 | _ => ev
                 end in
      ev' :: relabel b (past ++ [ev']) tr'
  end.

(** How far the main thread is from the end of the loop, the draining of
    the queue apart: the layers still to visit count 200 each, the
    statements of [run_layer] ahead one each. *)
Definition rank (s : state) : nat :=
  match pc s with
  | M_export => 0
  | M_loop => 200 * length (pending s) + 1
  | M_drain _ _ _ _ => 200 * length (pending s) + 2
  | M_join _ _ _ => 200 * length (pending s) + 3
  | M_stop _ _ _ => 200 * length (pending s) + 4
  | M_end _ _ => 200 * length (pending s) + 5
  | M_timed _ _ k => 200 * length (pending s) + 6 + (NUM_REPEATS - k)
  | M_start _ => 200 * length (pending s) + 107
  | M_warmup _ k => 200 * length (pending s) + 108 + (WARMUP - k)
  end.

(** The units whose [run_layer] was entered, by the lines printed so far
    and the unit under way. *)
Definition units_started (s : state) : nat :=
  length (with_fate Measured (map verdict (stdout s)))
  + length (with_fate Failed (map verdict (stdout s)))
  + match progress (pc s) with Some _ => 1 | None => 0 end.

(** One thread for each unit entered, the newest for the unit under way. *)
Definition threads_inv (s : state) : Prop :=
  length (sessions s) = units_started s
  /\ forall j n, progress (pc s) = Some (j, n) ->
                 S (job_session j) = length (sessions s).

(** ** Further sample runs *)

(** The first unit of the sample run, its thread having passed line 22 once
    more just before the main thread sets the stop event at line 47. *)
Definition late_stop_trace : list event :=
  timed_run 0 ++ [Logger 0 five_watts; Main].
Definition late_stop_state : state :=
  run_of both_captured [conv; relu] late_stop_trace.

(** The first unit of the sample run at line 48, its thread still in its
    loop. *)
Definition waiting_state : state :=
  run_of both_captured [conv; relu] (timed_run 0 ++ [Main]).

(** ... and the three statements that put the sample in flight. *)
Definition tail_sample_trace : list event := repeat (Logger 0 five_watts) 3.

(** ** The aggregation alone *)

Section Aggregation.
Local Open Scope Q_scope.

Lemma Qgt_bool_true x y : Qgt_bool x y = true <-> y < x.
Proof.
  unfold Qgt_bool. rewrite negb_true_iff.
  destruct (Qle_bool x y) eqn:E.
  - apply Qle_bool_iff in E. split; [discriminate | intros; lra].
  - split; [intros _ | reflexivity].
    destruct (Qlt_le_dec y x) as [H | H]; [exact H |].
    apply Qle_bool_iff in H. congruence.
Qed.

Lemma Qgt_bool_false x y : Qgt_bool x y = false <-> x <= y.
Proof.
  unfold Qgt_bool. rewrite negb_false_iff. apply Qle_bool_iff.
Qed.

Lemma in_window_spec start end_ t :
  in_window start end_ t = true <-> start <= t /\ t <= end_.
Proof.
  unfold in_window. rewrite andb_true_iff, !Qle_bool_iff. reflexivity.
Qed.

Lemma drain_selected start end_ q acc :
  drain start end_ q acc = (acc ++ selected start end_ q)%list.
Proof.
  revert acc. induction q as [| [t p] q IH]; intros acc; simpl.
  - unfold selected. simpl. by rewrite app_nil_r.
  - rewrite IH. unfold keep, selected. simpl.
    destruct (in_window start end_ t); simpl; [| reflexivity].
    by rewrite <- app_assoc.
Qed.

Lemma fold_plus_acc l a : fold_left Qplus l a == a + pysum l.
Proof.
  unfold pysum. revert a. induction l as [| x l IH]; intros a; simpl.
  - lra.
  - rewrite IH, (IH (0 + x)). lra.
Qed.

Lemma pysum_cons x l : pysum (x :: l) == x + pysum l.
Proof. unfold pysum at 1. simpl. rewrite fold_plus_acc. lra. Qed.

Lemma pysum_positive l :
  l <> [] -> Forall (fun w => 0 < w) l -> 0 < pysum l.
Proof.
  intros Hne Hall. induction Hall as [| x l Hx Hall IH]; [done |].
  rewrite pysum_cons. destruct l as [| y l].
  - unfold pysum. simpl. lra.
  - assert (0 < pysum (y :: l)) by (apply IH; done). lra.
Qed.

(** Lines 50 and 56-59 always return, with these fields. *)
Lemma summarize_returns start end_ l :
  exists m, summarize start end_ l = Ok m
    /\ duration m = end_ - start
    /\ energy m = pysum l * POLL_INTERVAL
    /\ samples m = l
    /\ avg_power m
       = (if Qgt_bool (end_ - start) 0 then energy m / duration m else 0).
Proof.
  unfold summarize, pydiv.
  destruct (Qgt_bool (end_ - start) 0) eqn:E.
  - pose proof (proj1 (Qgt_bool_true _ _) E) as Hpos.
    destruct (Qeq_bool (end_ - start) 0) eqn:Z.
    + apply Qeq_bool_iff in Z. lra.
    + eexists. split; [reflexivity |].
      cbn [duration energy avg_power samples]. done.
  - eexists. split; [reflexivity |].
    cbn [duration energy avg_power samples]. done.
Qed.

Lemma aggregate_returns start end_ q :
  exists m, aggregate start end_ q = Ok m
    /\ duration m = end_ - start
    /\ samples m = selected start end_ q
    /\ energy m = pysum (samples m) * POLL_INTERVAL
    /\ avg_power m
       = (if Qgt_bool (duration m) 0 then energy m / duration m else 0).
Proof.
  unfold aggregate. rewrite drain_selected. simpl.
  destruct (summarize_returns start end_ (selected start end_ q))
    as (m & -> & Hd & He & Hs & Ha).
  exists m. rewrite Hs, Hd. by rewrite Hd in Ha.
Qed.

(** The aggregate of a queue that never held an item. *)
Lemma aggregate_nil start end_ m :
  aggregate start end_ [] = Ok m ->
  samples m = [] /\ energy m == 0 /\ avg_power m == 0.
Proof.
  intros Hagg.
  destruct (aggregate_returns start end_ []) as (m' & Hm & _ & Hs & He & Ha).
  assert (m' = m) as -> by congruence.
  unfold selected in Hs. simpl in Hs. rewrite Hs in He.
  assert (energy m == 0) as He0 by (rewrite He; reflexivity).
  split_and!; try done.
  rewrite Ha. destruct (Qgt_bool (duration m) 0); [| reflexivity].
  unfold Qdiv. rewrite He0. ring.
Qed.

End Aggregation.

(** ** Runs: general facts *)

Lemma exec_app tr1 tr2 s :
  exec (tr1 ++ tr2) s = exec tr1 s ≫= exec tr2.
Proof.
  revert s. induction tr1 as [| ev tr1 IH]; intros s; simpl; [done |].
  destruct (step ev s) as [s1 |]; simpl; [apply IH | done].
Qed.

(** A property kept by every step holds along every run. *)
Lemma exec_invariant (P : state -> Prop) :
  (forall ev s s', P s -> step ev s = Some s' -> P s') ->
  forall tr s s', P s -> exec tr s = Some s' -> P s'.
Proof.
  intros Hstep tr. induction tr as [| ev tr IH]; intros s s' HP Hrun.
  - simpl in Hrun. by simplify_eq.
  - simpl in Hrun. destruct (step ev s) as [s1 |] eqn:E; [| done].
    simpl in Hrun. eapply IH; [| exact Hrun]. eapply Hstep; eauto.
Qed.

Lemma reachable_invariant inputs layers (P : state -> Prop) :
  (forall t0, P (init inputs layers t0)) ->
  (forall ev s s', P s -> step ev s = Some s' -> P s') ->
  forall s, reachable inputs layers s -> P s.
Proof.
  intros Hinit Hstep s (t0 & tr & Hrun).
  eapply exec_invariant; [exact Hstep | apply Hinit | exact Hrun].
Qed.

Lemma step_logger s i src ses ses' :
  sessions s !! i = Some ses ->
  logger_step (now s) src ses = Some ses' ->
  step (Logger i src) s = Some (with_sessions (<[i := ses']> (sessions s)) s).
Proof. intros Hi Hs. simpl. rewrite Hi. simpl. by rewrite Hs. Qed.

(** Case analysis on one statement of the main thread. *)
Ltac main_cases H :=
  unfold main_step, call, fail in H;
  repeat match type of H with
         | context [mbind _ ?x] => destruct x eqn:?; simpl in H
         | context [match power_q ?x with _ => _ end] =>
             destruct (power_q x) eqn:?
         | context [match ?x with _ => _ end] => destruct x eqn:?
         end;
  simplify_eq.

(** ** The logger thread *)

Lemma logger_step_live now src ses ses' :
  logger_step now src ses = Some ses' -> terminated (logger ses) = false.
Proof.
  unfold logger_step. destruct (logger ses); try done.
Qed.

(** A statement of the thread adds items at the tail of the queue and of
    the history alike, and leaves the stop flag alone. *)
Lemma logger_step_puts now src ses ses' :
  logger_step now src ses = Some ses' ->
  stop_event ses' = stop_event ses
  /\ exists new, power_q ses' = power_q ses ++ new
              /\ enqueued ses' = enqueued ses ++ new.
Proof.
  unfold logger_step. intros H. split.
  - destruct (logger ses), src; repeat case_match; by simplify_eq.
  - destruct (logger ses) eqn:E.
    5: { simplify_eq. exists [(ts, power)]. done. }
    all: exists []; rewrite !app_nil_r;
      destruct src; repeat case_match; by simplify_eq.
Qed.

(** Once its thread is over, a session keeps its history and an empty queue
    stays empty, whatever runs. *)
Lemma step_after_termination ev s s' i ses :
  step ev s = Some s' ->
  sessions s !! i = Some ses -> terminated (logger ses) = true ->
  exists ses', sessions s' !! i = Some ses'
    /\ logger ses' = logger ses
    /\ enqueued ses' = enqueued ses
    /\ (power_q ses = [] -> power_q ses' = []).
Proof.
  intros Hstep Hi Hterm. destruct ev as [d | | i0 src]; simpl in Hstep.
  - case_match; simplify_eq. simpl. eauto.
  - main_cases Hstep; simpl; eauto.
    { exists ses. split; [| done]. by apply lookup_app_l_Some. }
    all: destruct (decide (job_session j = i)) as [Heq | Hne];
      [ rewrite Heq in *;
        match goal with
        | H1 : sessions _ !! ?k = Some ?a, H2 : sessions _ !! ?k = Some ?b
          |- _ => assert (a = b) as -> by congruence
        end;
        eexists; split;
        [ apply list_lookup_insert_eq; by eapply lookup_lt_Some
        | simpl; repeat split; congruence ]
      | exists ses; by rewrite list_lookup_insert_ne ].
  - destruct (sessions s !! i0) as [ses0 |] eqn:E0; simpl in Hstep; [| done].
    destruct (logger_step (now s) src ses0) as [ses1 |] eqn:E1;
      simpl in Hstep; simplify_eq.
    destruct (decide (i0 = i)) as [-> | Hne].
    + assert (ses0 = ses) as -> by congruence.
      apply logger_step_live in E1. congruence.
    + exists ses. simpl. by rewrite list_lookup_insert_ne.
Qed.

Lemma exec_after_termination tr s s' i ses :
  exec tr s = Some s' ->
  sessions s !! i = Some ses -> terminated (logger ses) = true ->
  exists ses', sessions s' !! i = Some ses'
    /\ logger ses' = logger ses
    /\ enqueued ses' = enqueued ses
    /\ (power_q ses = [] -> power_q ses' = []).
Proof.
  revert s ses. induction tr as [| ev tr IH]; intros s ses Hrun Hi Hterm.
  - simpl in Hrun. simplify_eq. eauto.
  - simpl in Hrun. destruct (step ev s) as [s1 |] eqn:E; [| done].
    simpl in Hrun.
    destruct (step_after_termination _ _ _ _ _ E Hi Hterm)
      as (ses1 & Hi1 & Hl & He & Hq).
    destruct (IH s1 ses1 Hrun Hi1) as (ses' & Hi' & Hl' & He' & Hq').
    { congruence. }
    exists ses'. repeat split; [done | congruence | congruence | auto].
Qed.

(** ** The order of the main thread's actions (lines 36-45) *)

Lemma warming_later tl k t t' :
  (t <= t')%Q -> warming tl k t -> warming tl k t'.
Proof.
  intros Hle (tw & -> & Hlen & Hall). exists tw. repeat split; [done |].
  eapply Forall_impl; [exact Hall |]. simpl. intros x Hx. lra.
Qed.

Lemma warming_call tl k t :
  warming tl k t -> warming (tl ++ [(Call, t)]) (S k) t.
Proof.
  intros (tw & -> & Hlen & Hall). exists (tw ++ [t]). repeat split.
  - unfold calls. by rewrite map_app.
  - rewrite length_app. simpl. lia.
  - apply Forall_app. split; [done |]. constructor; [lra | constructor].
Qed.

Lemma warming_start tl t :
  warming tl WARMUP t -> timing (tl ++ [(Start, t)]) t 0 t.
Proof.
  intros (tw & -> & Hlen & Hall). exists tw, []. simpl.
  repeat split; try done. lra.
Qed.

Lemma timing_later tl start k t t' :
  (t <= t')%Q -> timing tl start k t -> timing tl start k t'.
Proof.
  intros Hle (tw & tt & -> & Hw & Ht & Hwall & Htall & Hst).
  exists tw, tt. repeat split; try done; [| lra].
  eapply Forall_impl; [exact Htall |]. simpl. intros x Hx. lra.
Qed.

Lemma timing_call tl start k t :
  timing tl start k t -> timing (tl ++ [(Call, t)]) start (S k) t.
Proof.
  intros (tw & tt & -> & Hw & Ht & Hwall & Htall & Hst).
  exists tw, (tt ++ [t]). repeat split; try done.
  - unfold calls. rewrite map_app. simpl. by rewrite <- app_assoc.
  - rewrite length_app. simpl. lia.
  - apply Forall_app. split; [done |]. constructor; [lra | constructor].
Qed.

Lemma timing_end tl start t :
  timing tl start NUM_REPEATS t -> timed_unit (tl ++ [(End_, t)]) start t.
Proof.
  intros (tw & tt & -> & Hw & Ht & Hwall & Htall & Hst).
  exists tw, tt. repeat split; try done.
  by rewrite <- app_assoc.
Qed.

Lemma timeline_after_warmup s j k :
  k <= WARMUP -> warming (timeline s) k (now s) ->
  timeline_inv (goto (after_warmup j k) s).
Proof.
  intros Hk Hw. unfold timeline_inv, after_warmup. cbn [pc goto].
  destruct (Nat.ltb_spec k WARMUP) as [Hlt | Hge]; cbn [timeline now].
  - done.
  - by replace WARMUP with k by lia.
Qed.

Lemma timeline_after_timed s j start k :
  k <= NUM_REPEATS -> timing (timeline s) start k (now s) ->
  timeline_inv (goto (after_timed j start k) s).
Proof.
  intros Hk Hw. unfold timeline_inv, after_timed. cbn [pc goto].
  destruct (Nat.ltb_spec k NUM_REPEATS) as [Hlt | Hge]; cbn [timeline now].
  - done.
  - by replace NUM_REPEATS with k by lia.
Qed.

Lemma timeline_step ev s s' :
  timeline_inv s -> step ev s = Some s' -> timeline_inv s'.
Proof.
  intros Hinv Hstep. destruct ev as [d | | i src]; simpl in Hstep.
  - destruct (Qle_bool 0 d) eqn:Hd; simplify_eq.
    apply Qle_bool_iff in Hd.
    assert (now s <= now s + d)%Q as Hle by lra.
    unfold timeline_inv in *. cbn [pc timeline now].
    destruct (pc s); try done.
    + destruct Hinv. eauto using warming_later.
    + eauto using warming_later.
    + destruct Hinv. eauto using timing_later.
    + eauto using timing_later.
  - main_cases Hstep;
      unfold timeline_inv in Hinv;
      repeat match goal with H : pc s = _ |- _ => rewrite H in Hinv end;
      try (unfold timeline_inv; simpl;
           try match goal with H : pc s = _ |- _ => rewrite H end; done).
    + apply (timeline_after_warmup
               (with_sessions _ (advance _ s))); [lia |].
      exists []. done.
    + destruct Hinv as [Hk Hw].
      apply (timeline_after_warmup (note Call s)); [lia |].
      by apply warming_call.
    + apply (timeline_after_timed (note Start s)); [lia |].
      by apply warming_start.
    + destruct Hinv as [Hk Hw].
      apply (timeline_after_timed (note Call s)); [lia |].
      by apply timing_call.
    + by apply timing_end.
  - destruct (sessions s !! i) as [ses |]; simpl in Hstep; [| done].
    destruct (logger_step (now s) src ses); simpl in Hstep; by simplify_eq.
Qed.

(** ** The queue of the unit being measured *)

Lemma selected_app start end_ q1 q2 :
  selected start end_ (q1 ++ q2)
  = selected start end_ q1 ++ selected start end_ q2.
Proof. unfold selected. by rewrite List.filter_app, map_app. Qed.

Lemma keep_selected start end_ got x :
  keep start end_ (selected start end_ got) x
  = selected start end_ (got ++ [x]).
Proof.
  rewrite selected_app. unfold keep.
  replace (selected start end_ [x])
    with (if in_window start end_ x.1 then [x.2] else []).
  2: { unfold selected. simpl. by destruct (in_window start end_ x.1). }
  destruct (in_window start end_ x.1); [done | by rewrite app_nil_r].
Qed.

Lemma session_after_warmup s j k ses :
  sessions s !! job_session j = Some ses -> enqueued ses = power_q ses ->
  session_inv (goto (after_warmup j k) s).
Proof.
  intros Hi Hq. unfold session_inv, after_warmup. cbn [pc goto].
  destruct (k <? WARMUP); cbn [sessions]; eauto.
Qed.

Lemma session_after_timed s j start k ses :
  sessions s !! job_session j = Some ses -> enqueued ses = power_q ses ->
  session_inv (goto (after_timed j start k) s).
Proof.
  intros Hi Hq. unfold session_inv, after_timed. cbn [pc goto].
  destruct (k <? NUM_REPEATS); cbn [sessions]; eauto.
Qed.

(** A statement of another session's thread, or of this session's thread
    while nothing has been taken, keeps "history = queue". *)
Lemma undrained_logger_step s i src ses0 ses1 j ses :
  sessions s !! i = Some ses0 ->
  logger_step (now s) src ses0 = Some ses1 ->
  sessions s !! job_session j = Some ses ->
  enqueued ses = power_q ses ->
  exists ses', <[i := ses1]> (sessions s) !! job_session j = Some ses'
    /\ enqueued ses' = power_q ses'
    /\ stop_event ses' = stop_event ses.
Proof.
  intros Hi Hstep Hj Hq.
  destruct (decide (i = job_session j)) as [Heq | Hne].
  - rewrite Heq in *. assert (ses0 = ses) as -> by congruence.
    exists ses1. split.
    { apply list_lookup_insert_eq. by eapply lookup_lt_Some. }
    destruct (logger_step_puts _ _ _ _ Hstep) as (Hs & new & Hp & He).
    split; [| done]. by rewrite Hp, He, Hq.
  - exists ses. by rewrite list_lookup_insert_ne.
Qed.

Lemma session_step ev s s' :
  session_inv s -> step ev s = Some s' -> session_inv s'.
Proof.
  intros Hinv Hstep. destruct ev as [d | | i src]; simpl in Hstep.
  - case_match; simplify_eq. exact Hinv.
  - main_cases Hstep;
      unfold session_inv in Hinv;
      repeat match goal with H : pc s = _ |- _ => rewrite H in Hinv end;
      try (unfold session_inv; simpl;
           try match goal with H : pc s = _ |- _ => rewrite H end; done).
    + eapply (session_after_warmup (with_sessions _ (advance _ s))).
      * cbn [sessions with_sessions job_session]. by apply list_lookup_middle.
      * done.
    + destruct Hinv as (ses & Hi & Hq).
      by eapply (session_after_warmup (note Call s)).
    + destruct Hinv as (ses & Hi & Hq).
      by eapply (session_after_timed (note Call s)).
    + destruct Hinv as (ses & Hi & Hq).
      unfold session_inv. simpl. exists (set_stop ses).
      assert (s0 = ses) as -> by congruence. split; [| done].
      apply list_lookup_insert_eq. by eapply lookup_lt_Some.
    + destruct Hinv as (ses & Hi & Hq & Hs).
      unfold session_inv. simpl. exists ses, [].
      assert (s0 = ses) as -> by congruence. done.
    + destruct Hinv as (ses & got & Hi & Ht & Hq & Hacc).
      unfold session_inv. simpl.
      assert (s0 = ses) as -> by congruence.
      eexists _, (got ++ [_]). split.
      { apply list_lookup_insert_eq. by eapply lookup_lt_Some. }
      simpl. split; [done |]. split.
      * rewrite Hq. match goal with H : power_q ses = _ |- _ => rewrite H end.
        by rewrite <- app_assoc.
      * rewrite Hacc. apply keep_selected.
  - destruct (sessions s !! i) as [ses0 |] eqn:E0; simpl in Hstep; [| done].
    destruct (logger_step (now s) src ses0) as [ses1 |] eqn:E1;
      simpl in Hstep; simplify_eq.
    unfold session_inv in *. cbn [pc sessions with_sessions].
    destruct (pc s) as [| j k | j | j st k | j st | j st en | j st en
                        | j st en acc |]; try done.
    1-5: destruct Hinv as (ses & Hj & Hq);
      destruct (undrained_logger_step _ _ _ _ _ _ _ E0 E1 Hj Hq)
        as (ses' & ? & ? & ?); eauto.
    + destruct Hinv as (ses & Hj & Hq & Hs).
      destruct (undrained_logger_step _ _ _ _ _ _ _ E0 E1 Hj Hq)
        as (ses' & ? & ? & ?). exists ses'. repeat split; congruence.
    + destruct Hinv as (ses & got & Hj & Ht & Hq & Hacc).
      exists ses, got. repeat split; try done.
      rewrite list_lookup_insert_ne; [done |]. intros ->.
      assert (ses0 = ses) as -> by congruence.
      apply logger_step_live in E1. congruence.
Qed.

(** ** The recorded results *)

Lemma recorded_step ev s s' r w :
  step ev s = Some s' -> recorded s r w -> recorded s' r w.
Proof.
  intros Hstep (ses & Hi & Ht & Hq & Hle & Hagg).
  destruct (step_after_termination _ _ _ _ _ Hstep Hi Ht)
    as (ses' & Hi' & Hl & He & Hq').
  exists ses'. repeat split; [done | congruence | auto | done | congruence].
Qed.

Lemma pysum_snoc l x : pysum (l ++ [x]) = (pysum l + x)%Q.
Proof. unfold pysum. by rewrite fold_left_app. Qed.

Lemma results_step ev s s' :
  timeline_inv s -> session_inv s -> results_inv s ->
  step ev s = Some s' -> results_inv s'.
Proof.
  intros Htime Hses (Hrec & He & Hd) Hstep.
  assert (Forall2 (recorded s') (results s) (measured s)) as Hrec'.
  { eapply Forall2_impl; [exact Hrec |]. intros r w.
    by apply recorded_step with (ev := ev). }
  destruct ev as [d | | i src]; simpl in Hstep.
  - case_match; by simplify_eq.
  - main_cases Hstep; try (unfold results_inv; simpl; done).
    unfold results_inv. cbn [results measured total_energy total_duration
                              record].
    rewrite !map_last, !pysum_snoc. simpl.
    split; [| by rewrite He, Hd].
    apply Forall2_app; [exact Hrec' |]. constructor; [| constructor].
    unfold timeline_inv, session_inv in *.
    match goal with H : pc s = _ |- _ => rewrite H in Htime, Hses end.
    destruct Htime as (tw & tt & _ & _ & _ & _ & _ & Hle).
    destruct Hses as (ses & got & Hi & Ht & Hq & Hacc).
    assert (s0 = ses) as -> by congruence.
    exists ses. simpl. repeat split; try done.
    unfold aggregate. rewrite drain_selected. simpl.
    match goal with H : power_q ses = [] |- _ => rewrite H in Hq end.
    rewrite app_nil_r in Hq. by rewrite Hq, <- Hacc.
  - destruct (sessions s !! i) as [ses |]; simpl in Hstep; [| done].
    destruct (logger_step (now s) src ses); simpl in Hstep; by simplify_eq.
Qed.

(** ** Threads that never opened the source *)

Lemma unopened_logger_step now src ses ses' :
  logger_step now src ses = Some ses' ->
  (logger ses = L_open \/ logger ses = L_open_failed -> enqueued ses = []) ->
  logger ses' = L_open \/ logger ses' = L_open_failed -> enqueued ses' = [].
Proof.
  unfold logger_step. intros Hstep Hold Hnew.
  destruct (logger ses) eqn:E, src; repeat case_match; simplify_eq;
    simpl in *; destruct Hnew; try done; auto.
Qed.

Lemma unopened_step ev s s' :
  unopened_inv s -> step ev s = Some s' -> unopened_inv s'.
Proof.
  unfold unopened_inv. intros Hinv Hstep.
  destruct ev as [d | | i src]; simpl in Hstep.
  - case_match; by simplify_eq.
  - main_cases Hstep; try done; simpl.
    + apply Forall_app. split; [done |]. by constructor.
    + apply Forall_insert; [done |]. simpl.
      eapply (Forall_lookup_1 _ _ _ _ Hinv). eassumption.
    + apply Forall_insert; [done |]. simpl.
      eapply (Forall_lookup_1 _ _ _ _ Hinv). eassumption.
  - destruct (sessions s !! i) as [ses |] eqn:E; simpl in Hstep; [| done].
    destruct (logger_step (now s) src ses) as [ses' |] eqn:E';
      simpl in Hstep; simplify_eq.
    simpl. apply Forall_insert; [done |].
    eapply unopened_logger_step; [exact E' |].
    eapply (Forall_lookup_1 _ _ _ _ Hinv). eassumption.
Qed.

(** ** The account of the loop over the layers *)

Lemma verdicts_app inputs i a b :
  verdicts inputs i (a ++ b)
  = verdicts inputs i a ++ verdicts inputs (i + length a) b.
Proof.
  revert i. induction a as [| l a IH]; intros i; simpl.
  - by rewrite Nat.add_0_r.
  - rewrite IH. do 3 f_equal. lia.
Qed.

Lemma verdicts_length inputs i layers :
  length (verdicts inputs i layers) = length layers.
Proof.
  revert i. induction layers as [| l layers IH]; intros i; simpl; [done |].
  by rewrite IH.
Qed.

Lemma with_fate_snoc f v name g :
  with_fate f (v ++ [(name, g)])
  = with_fate f v ++ (if fate_eqb g f then [name] else []).
Proof.
  unfold with_fate. rewrite List.filter_app, map_app. simpl.
  by destruct (fate_eqb g f).
Qed.

Lemma completes_spec l :
  completes l = true
  <-> forall m, m < WARMUP + NUM_REPEATS -> forward l m = true.
Proof.
  unfold completes. rewrite forallb_forall. split.
  - intros H m Hm. apply H. apply in_seq. lia.
  - intros H m Hm. apply H. apply in_seq in Hm. lia.
Qed.

Lemma progress_after_warmup j k :
  k <= WARMUP -> progress (after_warmup j k) = Some (j, k).
Proof.
  intros Hk. unfold after_warmup.
  destruct (Nat.ltb_spec k WARMUP); simpl; [done |].
  do 2 f_equal. lia.
Qed.

Lemma progress_after_timed j start k :
  k <= NUM_REPEATS ->
  progress (after_timed j start k) = Some (j, WARMUP + k).
Proof.
  intros Hk. unfold after_timed.
  destruct (Nat.ltb_spec k NUM_REPEATS); cbn [progress]; [done |].
  do 2 f_equal. lia.
Qed.

Lemma progress_after_warmup_job j k :
  exists n, progress (after_warmup j k) = Some (j, n).
Proof. unfold after_warmup. case_match; by eexists. Qed.

Lemma progress_after_timed_job j start k :
  exists n, progress (after_timed j start k) = Some (j, n).
Proof. unfold after_timed. case_match; by eexists. Qed.

Lemma account_close inputs layers s' done l out
  (res : list (string * measurement)) x :
  layer_inputs s' = inputs ->
  layers = done ++ l :: pending s' ->
  index s' = S (length done) ->
  pc s' = M_loop ->
  map verdict out = verdicts inputs 0 done ->
  map fst res = with_fate Measured (verdicts inputs 0 done) ->
  stdout s' = out ++ [x] ->
  verdict x = (name_of (length done) l, fate_of inputs l) ->
  map fst (results s')
  = map fst res ++ (if fate_eqb (fate_of inputs l) Measured
                    then [name_of (length done) l] else []) ->
  account_inv inputs layers s'.
Proof.
  intros Hin Hlay Hidx Hpc Hout Hres Hout' Hx Hres'.
  split; [done |]. exists (done ++ [l]).
  rewrite verdicts_app. cbn [verdicts Nat.add].
  rewrite with_fate_snoc, Hout', Hres', Hpc. simpl.
  rewrite map_app, Hout, Hres. simpl. rewrite Hx.
  repeat split; try done.
  - by rewrite <- app_assoc.
  - rewrite length_app. simpl. lia.
Qed.

Lemma account_continue inputs layers s' done j n :
  layer_inputs s' = inputs ->
  map verdict (stdout s') = verdicts inputs 0 done ->
  map fst (results s') = with_fate Measured (verdicts inputs 0 done) ->
  progress (pc s') = Some (j, n) ->
  layers = done ++ job_layer j :: pending s' ->
  index s' = S (length done) ->
  job_name j = name_of (length done) (job_layer j) ->
  is_Some (inputs !! layer_id (job_layer j)) ->
  (forall m, m < n -> forward (job_layer j) m = true) ->
  account_inv inputs layers s'.
Proof.
  intros Hin Hout Hres Hprog **. split; [done |]. exists done.
  rewrite Hprog. done.
Qed.

Lemma fate_failed inputs l n :
  is_Some (inputs !! layer_id l) -> n < WARMUP + NUM_REPEATS ->
  forward l n = false -> fate_of inputs l = Failed.
Proof.
  intros [x Hx] Hn Hf. unfold fate_of. rewrite Hx.
  destruct (completes l) eqn:E; [| done].
  rewrite completes_spec in E. rewrite E in Hf; done.
Qed.

Lemma fate_measured inputs l :
  is_Some (inputs !! layer_id l) ->
  (forall m, m < WARMUP + NUM_REPEATS -> forward l m = true) ->
  fate_of inputs l = Measured.
Proof.
  intros [x Hx] Hf. unfold fate_of. rewrite Hx.
  apply completes_spec in Hf. by rewrite Hf.
Qed.

Lemma account_step inputs layers ev s s' :
  timeline_inv s -> account_inv inputs layers s ->
  step ev s = Some s' -> account_inv inputs layers s'.
Proof.
  intros Htime (Hin & done & Hout & Hres & Hprog) Hstep.
  destruct ev as [d | | i src]; simpl in Hstep.
  - case_match; simplify_eq. split; [done |]. by exists done.
  - main_cases Hstep; unfold timeline_inv in Htime;
      match goal with
      | H : pc s = _ |- _ => try rewrite H in Htime; try rewrite H in Hprog
      end;
      cbn [progress] in Hprog.
    + (* the loop is over *)
      destruct Hprog as (Hlay & Hidx & _).
      split; [done |]. exists done. simpl. split_and!; try done.
      congruence.
    + (* line 89 and lines 31-34 *)
      destruct Hprog as (Hlay & Hidx & _).
      eapply (account_continue _ _ _ done _ 0);
        [ done | done | done
        | apply progress_after_warmup; lia
        | simpl; congruence
        | simpl; lia
        | simpl; by rewrite Hidx
        | simpl; eauto
        | intros m Hm; lia ].
    + (* lines 85-87 *)
      destruct Hprog as (Hlay & Hidx & _).
      assert (fate_of (layer_inputs s) l = Skipped) as Hfate.
      { unfold fate_of. by case_match. }
      eapply (account_close _ _ _ done l (stdout s) (results s));
        [ done | simpl; congruence | simpl; lia | done | done | done
        | done
        | simpl; by rewrite Hidx, Hfate
        | rewrite Hfate; simpl; by rewrite app_nil_r ].
    + (* a warm-up call returns *)
      destruct Htime as [Hk _].
      destruct Hprog as (Hlay & Hidx & Hname & Hsome & Hfw).
      eapply (account_continue _ _ _ done j (S k));
        [ done | done | done
        | apply progress_after_warmup; lia
        | done | done | done | done |].
      intros m Hm. destruct (decide (m = k)) as [-> | Hne]; [done |].
      apply Hfw. lia.
    + (* a warm-up call raises *)
      destruct Htime as [Hk _].
      destruct Hprog as (Hlay & Hidx & Hname & Hsome & Hfw).
      assert (fate_of (layer_inputs s) (job_layer j) = Failed) as Hfate.
      { eapply (fate_failed _ _ k); [done | lia | done]. }
      eapply (account_close _ _ _ done (job_layer j) (stdout s) (results s));
        [ done | done | done | done | done | done | done
        | simpl; by rewrite Hname, Hfate
        | rewrite Hfate; simpl; by rewrite app_nil_r ].
    + (* line 41 *)
      destruct Hprog as (Hlay & Hidx & Hname & Hsome & Hfw).
      eapply (account_continue _ _ _ done j (WARMUP + 0));
        [ done | done | done
        | apply progress_after_timed; lia
        | done | done | done | done |].
      intros m Hm. apply Hfw. lia.
    + (* a timed call returns *)
      destruct Htime as [Hk _].
      destruct Hprog as (Hlay & Hidx & Hname & Hsome & Hfw).
      eapply (account_continue _ _ _ done j (WARMUP + S k));
        [ done | done | done
        | apply progress_after_timed; lia
        | done | done | done | done |].
      intros m Hm.
      destruct (decide (m = WARMUP + k)) as [-> | Hne]; [done |].
      apply Hfw. lia.
    + (* a timed call raises *)
      destruct Htime as [Hk _].
      destruct Hprog as (Hlay & Hidx & Hname & Hsome & Hfw).
      assert (fate_of (layer_inputs s) (job_layer j) = Failed) as Hfate.
      { eapply (fate_failed _ _ (WARMUP + k)); [done | lia | done]. }
      eapply (account_close _ _ _ done (job_layer j) (stdout s) (results s));
        [ done | done | done | done | done | done | done
        | simpl; by rewrite Hname, Hfate
        | rewrite Hfate; simpl; by rewrite app_nil_r ].
    + (* line 45 *)
      destruct Hprog as (Hlay & Hidx & Hname & Hsome & Hfw).
      by eapply (account_continue _ _ _ done j (WARMUP + NUM_REPEATS)).
    + (* line 47 *)
      destruct Hprog as (Hlay & Hidx & Hname & Hsome & Hfw).
      by eapply (account_continue _ _ _ done j (WARMUP + NUM_REPEATS)).
    + (* line 48 *)
      destruct Hprog as (Hlay & Hidx & Hname & Hsome & Hfw).
      by eapply (account_continue _ _ _ done j (WARMUP + NUM_REPEATS)).
    + (* lines 56-59 and 90-93 *)
      destruct Hprog as (Hlay & Hidx & Hname & Hsome & Hfw).
      assert (fate_of (layer_inputs s) (job_layer j) = Measured) as Hfate.
      { by apply fate_measured. }
      eapply (account_close _ _ _ done (job_layer j) (stdout s) (results s));
        [ done | done | done | done | done | done | done
        | simpl; by rewrite Hname, Hfate
        | rewrite Hfate; simpl; by rewrite map_app, Hname ].
    + (* lines 56-59 never raise *)
      match goal with
      | H : summarize ?a ?b ?c = Raise _ |- _ =>
          destruct (summarize_returns a b c) as (m & Hm & _); congruence
      end.
    + (* lines 53-55 *)
      destruct Hprog as (Hlay & Hidx & Hname & Hsome & Hfw).
      by eapply (account_continue _ _ _ done j (WARMUP + NUM_REPEATS)).
  - destruct (sessions s !! i) as [ses |]; simpl in Hstep; [| done].
    destruct (logger_step (now s) src ses); simpl in Hstep; simplify_eq.
    split; [done |]. by exists done.
Qed.

(** ** One sampler at a time, as long as no unit fails *)

Lemma no_failure_snoc out x :
  no_failure (out ++ [x]) -> no_failure out.
Proof.
  intros H name e Hin. apply (H name e). apply elem_of_app. by left.
Qed.

Lemma failure_printed out name e :
  ~ no_failure (out ++ [Printed_fail name e]).
Proof.
  intros H. apply (H name e). apply elem_of_app. right. by left.
Qed.

Lemma tidy_step ev s s' :
  session_inv s -> tidy_inv s -> step ev s = Some s' -> tidy_inv s'.
Proof.
  intros Hses Hinv Hstep. destruct ev as [d | | i0 src]; simpl in Hstep.
  - case_match; simplify_eq. exact Hinv.
  - unfold session_inv in Hses.
    main_cases Hstep;
      match goal with
      | H : pc s = _ |- _ =>
          unfold tidy_inv in Hinv;
          try rewrite H in Hinv; try rewrite H in Hses
      end;
      cbn [progress] in Hinv; intros Hout i ses Hi Hlive;
      cbn [stdout sessions pc goto print advance with_sessions note record
             fail] in *;
      try (by (destruct (Hinv Hout i ses Hi Hlive) as (? & ? & ? & ?)));
      try (by (apply no_failure_snoc in Hout;
               destruct (Hinv Hout i ses Hi Hlive) as (? & ? & ? & ?)));
      try (by (exfalso; eapply failure_printed; exact Hout)).
    + (* a new session *)
      destruct (decide (i < length (sessions s))) as [Hlt | Hge].
      * rewrite lookup_app_l in Hi by done.
        by destruct (Hinv Hout i ses Hi Hlive) as (? & ? & ? & ?).
      * destruct (progress_after_warmup_job
                    {| job_layer := l; job_name := name_of (index s) l;
                       job_input := t; job_session := length (sessions s) |}
                    0) as [n Hn].
        eexists _, n. split; [exact Hn |]. simpl.
        apply lookup_lt_Some in Hi. rewrite length_app in Hi. simpl in Hi.
        lia.
    + destruct (Hinv Hout i ses Hi Hlive) as (j' & n & Hj & <-).
      destruct (progress_after_warmup_job j (S k)) as [n' Hn].
      exists j, n'. split; [done | congruence].
    + destruct (Hinv Hout i ses Hi Hlive) as (j' & n & Hj & <-).
      destruct (progress_after_timed_job j (now s) 0) as [n' Hn].
      exists j, n'. split; [done | congruence].
    + destruct (Hinv Hout i ses Hi Hlive) as (j' & n & Hj & <-).
      destruct (progress_after_timed_job j start (S k)) as [n' Hn].
      exists j, n'. split; [done | congruence].
    + destruct (Hinv Hout i ses Hi Hlive) as (j' & n & Hj & <-).
      eexists _, _. split; [reflexivity | congruence].
    + destruct (decide (job_session j = i)) as [<- | Hne]; [by eauto |].
      rewrite list_lookup_insert_ne in Hi by done.
      destruct (Hinv Hout i ses Hi Hlive) as (j' & n & Hj & <-). congruence.
    + destruct (Hinv Hout i ses Hi Hlive) as (j' & n & Hj & <-).
      eexists _, _. split; [reflexivity | congruence].
    + (* the unit is recorded: its thread is over *)
      apply no_failure_snoc in Hout.
      destruct (Hinv Hout i ses Hi Hlive) as (j' & n & Hj & <-).
      destruct Hses as (ses' & got & Hi' & Ht & _).
      assert (j' = j) as -> by congruence. congruence.
    + destruct (decide (job_session j = i)) as [<- | Hne]; [by eauto |].
      rewrite list_lookup_insert_ne in Hi by done.
      destruct (Hinv Hout i ses Hi Hlive) as (j' & n & Hj & <-). congruence.
  - destruct (sessions s !! i0) as [ses0 |] eqn:E0; simpl in Hstep; [| done].
    destruct (logger_step (now s) src ses0) as [ses1 |] eqn:E1;
      simpl in Hstep; simplify_eq.
    intros Hout i ses Hi Hlive. simpl in *.
    destruct (decide (i0 = i)) as [-> | Hne].
    + apply logger_step_live in E1. by apply (Hinv Hout i ses0).
    + rewrite list_lookup_insert_ne in Hi by done. by apply (Hinv Hout i ses).
Qed.

(** A list with at most one position where [P] holds. *)
Lemma filter_at_one_index {A} (P : A -> Prop) `{!forall x, Decision (P x)}
  (l : list A) (i0 : nat) :
  (forall i x, l !! i = Some x -> P x -> i = i0) ->
  length (filter P l) <= 1.
Proof.
  revert i0. induction l as [| x l IH]; intros i0 Hone; [simpl; lia |].
  rewrite filter_cons. destruct (decide (P x)) as [Hx | Hx].
  - simpl. assert (filter P l = []) as ->; [| simpl; lia].
    destruct (filter P l) as [| y l'] eqn:E; [done |].
    assert (y ∈ filter P l) as Hin by (rewrite E; by left).
    apply list_elem_of_filter in Hin as [Hy Hin].
    apply list_elem_of_lookup in Hin as [i Hi].
    pose proof (Hone 0 x eq_refl Hx). pose proof (Hone (S i) y Hi Hy). lia.
  - apply (IH (pred i0)). intros i y Hi Hy.
    pose proof (Hone (S i) y Hi Hy). lia.
Qed.

(** ** Every reachable state satisfies the invariants *)

Lemma run_inv_init inputs layers t0 :
  run_inv inputs layers (init inputs layers t0).
Proof.
  unfold run_inv, timeline_inv, session_inv, results_inv, unopened_inv,
    account_inv, tidy_inv. simpl. split_and!; try done.
  exists []. done.
Qed.

Lemma run_inv_step inputs layers ev s s' :
  run_inv inputs layers s -> step ev s = Some s' -> run_inv inputs layers s'.
Proof.
  intros (Ht & Hs & Hr & Hu & Ha & Hy) Hstep. unfold run_inv.
  split_and!;
    eauto using timeline_step, session_step, results_step, unopened_step,
      account_step, tidy_step.
Qed.

Lemma reachable_inv inputs layers s :
  reachable inputs layers s -> run_inv inputs layers s.
Proof.
  apply reachable_invariant.
  - apply run_inv_init.
  - apply run_inv_step.
Qed.

(** Every result was computed from the whole history of a session whose
    thread is over, over a window with [start <= end]. *)
Lemma reachable_recorded inputs layers s i r :
  reachable inputs layers s -> results s !! i = Some r ->
  exists w, measured s !! i = Some w /\ recorded s r w.
Proof.
  intros Hreach Hi.
  destruct (reachable_inv _ _ _ Hreach) as (_ & _ & (Hrec & _) & _).
  destruct (Forall2_lookup_l _ _ _ _ _ Hrec Hi) as (w & Hw & Hr). eauto.
Qed.

(** The sample runs are runs. *)
Lemma run_of_reachable inputs layers tr :
  is_Some (exec tr (init inputs layers 0)) ->
  reachable inputs layers (run_of inputs layers tr).
Proof.
  intros [s Hs]. exists 0%Q, tr. unfold run_of. by rewrite Hs.
Qed.

(** * The claims *)

(** C1. For every result of every run, the reported energy is the polling
    interval times the sum of the watts of exactly those items enqueued in
    the unit's session whose time stamp [t] satisfies [start <= t <= end_]
    (both ends included), taken in queue order.  Only the selected watts and
    the constant enter the energy: no time stamp does. *)
Theorem energy_is_interval_times_selected_watts inputs layers s i name m :
  reachable inputs layers s ->
  results s !! i = Some (name, m) ->
  exists sid start end_ ses,
    measured s !! i = Some (sid, start, end_)
    /\ sessions s !! sid = Some ses
    /\ samples m
       = map snd (List.filter
                    (fun x => Qle_bool start x.1 && Qle_bool x.1 end_)
                    (enqueued ses))
    /\ (forall t, Qle_bool start t && Qle_bool t end_ = true
                  <-> (start <= t /\ t <= end_)%Q)
    /\ energy m = (pysum (samples m) * POLL_INTERVAL)%Q
    /\ (energy m == POLL_INTERVAL * pysum (samples m))%Q.
Proof.
  intros Hreach Hi.
  destruct (reachable_recorded _ _ _ _ _ Hreach Hi)
    as ([[sid start] end_] & Hw & ses & Hses & _ & _ & _ & Hagg).
  simpl in Hses, Hagg.
  destruct (aggregate_returns start end_ (enqueued ses))
    as (m' & Hm' & _ & Hsam & Hen & _).
  assert (m' = m) as -> by congruence.
  exists sid, start, end_, ses. split_and!; try done.
  - intros t. apply in_window_spec.
  - rewrite Hen. ring.
Qed.

(** The first result of the sample run. *)
Lemma energy_is_interval_times_selected_watts_witness :
  exists sid start end_ ses,
    measured full_state !! 0 = Some (sid, start, end_)
    /\ sessions full_state !! sid = Some ses
    /\ [5000 # 1000; 5000 # 1000]%Q
       = map snd (List.filter
                    (fun x => Qle_bool start x.1 && Qle_bool x.1 end_)
                    (enqueued ses))
    /\ (forall t, Qle_bool start t && Qle_bool t end_ = true
                  <-> (start <= t /\ t <= end_)%Q)
    /\ (20000000 # 100000000
        = pysum [5000 # 1000; 5000 # 1000] * POLL_INTERVAL)%Q
    /\ (20000000 # 100000000
        == POLL_INTERVAL * pysum [5000 # 1000; 5000 # 1000])%Q.
Proof.
  apply (energy_is_interval_times_selected_watts
           both_captured [conv; relu] full_state 0 "Conv2d_0"
           {| duration := 400 # 10000; energy := 20000000 # 100000000;
              avg_power := 200000000000 # 40000000000;
              samples := [5000 # 1000; 5000 # 1000]%Q |}).
  - apply run_of_reachable. vm_compute. eexists. reflexivity.
  - vm_compute. reflexivity.
Defined.

(** C6. For every result of every run, the average power is the energy
    divided by the duration when the duration is positive, and 0 when the
    duration is 0. *)
Theorem avg_power_is_energy_over_duration inputs layers s i name m :
  reachable inputs layers s ->
  results s !! i = Some (name, m) ->
  ((0 < duration m)%Q -> avg_power m = (energy m / duration m)%Q)
  /\ ((duration m == 0)%Q -> avg_power m = 0%Q).
Proof.
  intros Hreach Hi.
  destruct (reachable_recorded _ _ _ _ _ Hreach Hi)
    as ([[sid start] end_] & Hw & ses & Hses & _ & _ & _ & Hagg).
  simpl in Hagg.
  destruct (aggregate_returns start end_ (enqueued ses))
    as (m' & Hm' & _ & _ & _ & Havg).
  assert (m' = m) as -> by congruence.
  split; intros Hd.
  - apply Qgt_bool_true in Hd. by rewrite Hd in Havg.
  - assert (Qgt_bool (duration m) 0 = false) as Hf.
    { apply Qgt_bool_false. lra. }
    by rewrite Hf in Havg.
Qed.

(** The first result of the sample run has a positive duration; the result
    of the unit during which the clock stands still has duration 0 (and one
    sample of 5 W in its window). *)
Lemma avg_power_is_energy_over_duration_witness :
  (0 < 400 # 10000)%Q
  /\ (200000000000 # 40000000000)%Q
     = ((20000000 # 100000000) / (400 # 10000))%Q
  /\ (0 == 0)%Q
  /\ 0%Q = 0%Q.
Proof.
  split; [reflexivity |]. split; [| split; [reflexivity |]].
  - apply (avg_power_is_energy_over_duration
             both_captured [conv; relu] full_state 0 "Conv2d_0"
             {| duration := 400 # 10000; energy := 20000000 # 100000000;
                avg_power := 200000000000 # 40000000000;
                samples := [5000 # 1000; 5000 # 1000]%Q |}).
    + apply run_of_reachable. vm_compute. eexists. reflexivity.
    + vm_compute. reflexivity.
    + reflexivity.
  - apply (avg_power_is_energy_over_duration
             both_captured [conv; relu] instant_state 0 "Conv2d_0"
             {| duration := 0; energy := 10000 # 100000; avg_power := 0;
                samples := [5000 # 1000]%Q |}).
    + apply run_of_reachable. vm_compute. eexists. reflexivity.
    + vm_compute. reflexivity.
    + reflexivity.
Defined.

(** C7. When no queued item falls into the window, lines 50-59 return (no
    exception), with an empty sample list, energy 0 and average power 0. *)
Theorem empty_selection_gives_zero start end_ q :
  selected start end_ q = [] ->
  exists m, aggregate start end_ q = Ok m
    /\ samples m = []
    /\ (energy m == 0)%Q
    /\ (avg_power m == 0)%Q.
Proof.
  intros Hsel.
  destruct (aggregate_returns start end_ q) as (m & Hm & Hd & Hs & He & Ha).
  exists m. rewrite Hsel in Hs. rewrite Hs in He.
  assert (energy m == 0)%Q as He0.
  { rewrite He. unfold pysum. simpl. ring. }
  split_and!; try done.
  rewrite Ha. destruct (Qgt_bool (duration m) 0); [| reflexivity].
  unfold Qdiv. rewrite He0. ring.
Qed.

(** A window of 40 ms and a queue whose only item is older. *)
Lemma empty_selection_gives_zero_witness :
  selected 1 (104 # 100) [(0, 5)]%Q = []
  /\ exists m, aggregate 1 (104 # 100) [(0, 5)]%Q = Ok m
       /\ samples m = []
       /\ (energy m == 0)%Q
       /\ (avg_power m == 0)%Q.
Proof.
  split; [reflexivity |].
  apply (empty_selection_gives_zero 1 (104 # 100) [(0, 5)]%Q). reflexivity.
Defined.

(** C10. Over a window [start <= end_] whose selected watts are all
    positive: when the window has duration 0 and the selection is not
    empty, the energy is positive (the polling interval times the sum of
    the selected watts) while the average power is 0, so the identity
    [avg_power * duration = energy] fails.  This is the only case in which
    line 57 gives an average power other than the quotient for an energy
    other than 0: in every other case either the duration is positive and
    the average power is the quotient [energy / duration] of line 57, or
    nothing is selected and the duration, the energy and the average power
    are all 0. *)
Theorem zero_duration_breaks_power_identity start end_ q m :
  aggregate start end_ q = Ok m ->
  (start <= end_)%Q ->
  Forall (fun w => 0 < w)%Q (selected start end_ q) ->
  ((start == end_)%Q /\ selected start end_ q <> [] ->
   (energy m == POLL_INTERVAL * pysum (selected start end_ q))%Q
   /\ (0 < energy m)%Q
   /\ avg_power m = 0%Q
   /\ ~ (avg_power m * duration m == energy m)%Q)
  /\ (~ ((start == end_)%Q /\ selected start end_ q <> []) ->
      ((0 < duration m)%Q /\ avg_power m = (energy m / duration m)%Q)
      \/ (selected start end_ q = []
          /\ (duration m == 0)%Q /\ (energy m == 0)%Q
          /\ avg_power m = 0%Q)).
Proof.
  intros Hagg Hle Hpos.
  destruct (aggregate_returns start end_ q)
    as (m' & Hm' & Hd & Hs & He & Ha).
  assert (m' = m) as -> by congruence.
  rewrite Hs in He.
  assert (0 < POLL_INTERVAL)%Q as Hpoll by reflexivity.
  split.
  - intros [Heq Hne].
    assert (0 < pysum (selected start end_ q))%Q as Hsum
      by by apply pysum_positive.
    assert (Qgt_bool (duration m) 0 = false) as Hf.
    { apply Qgt_bool_false. rewrite Hd. lra. }
    rewrite Hf in Ha.
    assert (0 < energy m)%Q as Hen.
    { rewrite He. by apply Qmult_lt_0_compat. }
    split_and!; try done.
    + rewrite He. ring.
    + rewrite Ha. intros Hid. lra.
  - intros Hnot. destruct (Qgt_bool (duration m) 0) eqn:Hg.
    + apply Qgt_bool_true in Hg. left. done.
    + apply Qgt_bool_false in Hg. right.
      assert (start == end_)%Q as Heq by (rewrite Hd in Hg; lra).
      destruct (selected start end_ q) as [| w ws] eqn:Hsel.
      * split_and!; try done.
        -- rewrite Hd. lra.
        -- rewrite He. unfold pysum. simpl. ring.
      * exfalso. apply Hnot. split; [done | discriminate].
Qed.

(** A window of duration 0 that holds one sample of 5 W. *)
Lemma zero_duration_breaks_power_identity_witness :
  aggregate 1 1 [(1, 5)]%Q
  = Ok {| duration := 0; energy := 10 # 100; avg_power := 0;
          samples := [5%Q] |}
  /\ (1 <= 1)%Q
  /\ Forall (fun w => 0 < w)%Q (selected 1 1 [(1, 5)]%Q)
  /\ (1 == 1)%Q /\ selected 1 1 [(1, 5)]%Q <> []
  /\ (10 # 100 == POLL_INTERVAL * pysum (selected 1 1 [(1, 5)]%Q))%Q
  /\ (0 < 10 # 100)%Q
  /\ 0%Q = 0%Q
  /\ ~ (0 * 0 == 10 # 100)%Q.
Proof.
  assert (aggregate 1 1 [(1, 5)]%Q
          = Ok {| duration := 0; energy := 10 # 100; avg_power := 0;
                  samples := [5%Q] |}) as Hagg by reflexivity.
  assert (1 <= 1)%Q as Hle by (intros H; discriminate H).
  assert (Forall (fun w => 0 < w)%Q (selected 1 1 [(1, 5)]%Q)) as Hpos
    by (constructor; [reflexivity | constructor]).
  assert ((1 == 1)%Q /\ selected 1 1 [(1, 5)]%Q <> []) as Hedge
    by (split; [reflexivity | discriminate]).
  split; [exact Hagg |]. split; [exact Hle |]. split; [exact Hpos |].
  split; [exact (proj1 Hedge) |]. split; [exact (proj2 Hedge) |].
  exact (proj1 (zero_duration_breaks_power_identity
                  1 1 [(1, 5)]%Q _ Hagg Hle Hpos) Hedge).
Defined.

(** C2. In every run, while the main thread drains a session (that is,
    after [join] has returned) the session's thread is over, every item it
    ever enqueued is either already taken by the drain loop or still in the
    queue, in order, and whatever runs afterwards enqueues nothing more in
    that session.  Hence every result is the aggregate of the whole history
    of its session, whose queue has been emptied. *)
Theorem drain_sees_exactly_the_enqueued_samples inputs layers s :
  reachable inputs layers s ->
  (forall j start end_ acc,
      pc s = M_drain j start end_ acc ->
      exists ses got,
        sessions s !! job_session j = Some ses
        /\ terminated (logger ses) = true
        /\ enqueued ses = got ++ power_q ses
        /\ acc = selected start end_ got
        /\ forall tr s', exec tr s = Some s' ->
             exists ses', sessions s' !! job_session j = Some ses'
               /\ terminated (logger ses') = true
               /\ enqueued ses' = enqueued ses)
  /\ (forall i name m,
         results s !! i = Some (name, m) ->
         exists sid start end_ ses,
           measured s !! i = Some (sid, start, end_)
           /\ sessions s !! sid = Some ses
           /\ terminated (logger ses) = true
           /\ power_q ses = []
           /\ aggregate start end_ (enqueued ses) = Ok m).
Proof.
  intros Hreach. split.
  - intros j start end_ acc Hpc.
    destruct (reachable_inv _ _ _ Hreach) as (_ & Hses & _).
    unfold session_inv in Hses. rewrite Hpc in Hses.
    destruct Hses as (ses & got & Hi & Ht & Hq & Hacc).
    exists ses, got. split_and!; try done.
    intros tr s' Hrun.
    destruct (exec_after_termination _ _ _ _ _ Hrun Hi Ht)
      as (ses' & Hi' & Hl & He & _).
    exists ses'. split_and!; congruence.
  - intros i name m Hi.
    destruct (reachable_recorded _ _ _ _ _ Hreach Hi)
      as ([[sid start] end_] & Hw & ses & Hses & Ht & Hq & _ & Hagg).
    exists sid, start, end_, ses. done.
Qed.

(** The first unit of the sample run just after [join]: two samples were
    enqueued and none is taken yet. *)
Lemma drain_sees_exactly_the_enqueued_samples_witness :
  exists ses got,
    sessions joined_state !! 0 = Some ses
    /\ terminated (logger ses) = true
    /\ enqueued ses = got ++ power_q ses
    /\ [] = selected 0 (400 # 10000) got
    /\ forall tr s', exec tr joined_state = Some s' ->
         exists ses', sessions s' !! 0 = Some ses'
           /\ terminated (logger ses') = true
           /\ enqueued ses' = enqueued ses.
Proof.
  apply (proj1 (drain_sees_exactly_the_enqueued_samples
                  both_captured [conv; relu] joined_state
                  ltac:(apply run_of_reachable; vm_compute;
                        eexists; reflexivity))
           {| job_layer := conv; job_name := "Conv2d_0"; job_input := 7;
              job_session := 0 |} 0%Q (400 # 10000)%Q []).
  vm_compute. reflexivity.
Defined.

(** C8. In every run, once the main thread is past line 45 with window
    [start, end_], its history of the unit reads: [WARMUP] calls, all made
    before [start] was read, then the reading of [start], then
    [NUM_REPEATS] calls made between the two readings, then the reading of
    [end_]; and [start <= end_]. *)
Theorem warmup_precedes_timed_window inputs layers s j start end_ :
  reachable inputs layers s ->
  window_of (pc s) = Some (j, start, end_) ->
  exists tw tt,
    timeline s = calls tw ++ (Start, start) :: calls tt ++ [(End_, end_)]
    /\ length tw = WARMUP
    /\ length tt = NUM_REPEATS
    /\ Forall (fun t => t <= start)%Q tw
    /\ Forall (fun t => start <= t /\ t <= end_)%Q tt
    /\ (start <= end_)%Q.
Proof.
  intros Hreach Hw.
  destruct (reachable_inv _ _ _ Hreach) as (Htime & _).
  unfold timeline_inv in Htime.
  destruct (pc s); simpl in Hw; simplify_eq; exact Htime.
Qed.

(** The first unit of the sample run just after line 45. *)
Lemma warmup_precedes_timed_window_witness :
  exists tw tt,
    timeline timed_state
    = calls tw ++ (Start, 0%Q) :: calls tt ++ [(End_, (400 # 10000)%Q)]
    /\ length tw = WARMUP
    /\ length tt = NUM_REPEATS
    /\ Forall (fun t => t <= 0)%Q tw
    /\ Forall (fun t => 0 <= t /\ t <= 400 # 10000)%Q tt
    /\ (0 <= 400 # 10000)%Q.
Proof.
  apply (warmup_precedes_timed_window both_captured [conv; relu] timed_state
           {| job_layer := conv; job_name := "Conv2d_0"; job_input := 7;
              job_session := 0 |}).
  - apply run_of_reachable. vm_compute. eexists. reflexivity.
  - vm_compute. reflexivity.
Defined.

(** The main thread can always run its next statement, unless the loop is
    over or it waits in [join] for a thread that is not over: no state of
    the loop is an abort. *)
Lemma main_thread_moves inputs layers s :
  reachable inputs layers s ->
  pc s <> M_export ->
  (forall j start end_ ses,
      pc s = M_join j start end_ ->
      sessions s !! job_session j = Some ses ->
      terminated (logger ses) = true) ->
  is_Some (step Main s).
Proof.
  intros Hreach Hpc Hjoin.
  destruct (reachable_inv _ _ _ Hreach) as (_ & Hses & _).
  unfold session_inv in Hses. simpl. unfold main_step.
  destruct (pc s) eqn:E; try done; try (by eexists).
  - repeat case_match; by eexists.
  - destruct Hses as (ses & -> & _). simpl. by eexists.
  - destruct Hses as (ses & Hi & _). rewrite Hi. simpl.
    rewrite (Hjoin _ _ _ _ eq_refl Hi). by eexists.
  - destruct Hses as (ses & got & -> & _). simpl.
    repeat case_match; by eexists.
Qed.

(** C3, as the program has it.  When [jtop()] cannot be opened for a unit,
    the exception ends that unit's logger thread only: the thread has
    enqueued nothing, [join] on it returns, and the result recorded for the
    unit has no samples, energy 0 and average power 0.  The loop over the
    layers goes on; each later unit starts a thread of its own, which opens
    the source anew. *)
Theorem open_failure_ends_only_the_thread inputs layers s :
  reachable inputs layers s ->
  (forall i ses,
      sessions s !! i = Some ses -> logger ses = L_open_failed ->
      enqueued ses = [] /\ terminated (logger ses) = true)
  /\ (forall j start end_ ses,
         pc s = M_join j start end_ ->
         sessions s !! job_session j = Some ses ->
         logger ses = L_open_failed ->
         step Main s = Some (goto (M_drain j start end_ []) s))
  /\ (forall i name m sid start end_ ses,
         results s !! i = Some (name, m) ->
         measured s !! i = Some (sid, start, end_) ->
         sessions s !! sid = Some ses ->
         logger ses = L_open_failed ->
         samples m = [] /\ (energy m == 0)%Q /\ (avg_power m == 0)%Q)
  /\ (forall l rest x,
         pc s = M_loop -> pending s = l :: rest ->
         layer_inputs s !! layer_id l = Some x ->
         exists s', step Main s = Some s'
           /\ sessions s' = sessions s ++ [fresh_session]
           /\ logger fresh_session = L_open).
Proof.
  intros Hreach.
  destruct (reachable_inv _ _ _ Hreach) as (_ & _ & _ & Hun & _).
  assert (forall i ses,
             sessions s !! i = Some ses -> logger ses = L_open_failed ->
             enqueued ses = []) as Hempty.
  { intros i ses Hi Hl.
    apply (Forall_lookup_1 _ _ _ _ Hun Hi). by right. }
  split_and!.
  - intros i ses Hi Hl. split; [by eapply Hempty |]. by rewrite Hl.
  - intros j start end_ ses Hpc Hi Hl. simpl. unfold main_step.
    rewrite Hpc, Hi. simpl. by rewrite Hl.
  - intros i name m sid start end_ ses Hi Hw Hses Hl.
    destruct (reachable_recorded _ _ _ _ _ Hreach Hi)
      as (w & Hw' & ses' & Hses' & _ & _ & _ & Hagg).
    assert (w = (sid, start, end_)) as -> by congruence.
    simpl in Hses', Hagg. assert (ses' = ses) as -> by congruence.
    rewrite (Hempty _ _ Hses Hl) in Hagg.
    by apply (aggregate_nil start end_).
  - intros l rest x Hpc Hpend Hin. simpl. unfold main_step.
    rewrite Hpc, Hpend, Hin. eexists. split; [reflexivity |]. done.
Qed.

(** The run in which the source never opens, its first session and its
    first result. *)
Lemma open_failure_ends_only_the_thread_witness :
  (enqueued {| stop_event := true; power_q := []; logger := L_open_failed;
               enqueued := [] |} = []
   /\ terminated L_open_failed = true)
  /\ (samples {| duration := 4 # 100; energy := 0 # 100;
                 avg_power := 0 # 400; samples := [] |} = []
      /\ (0 # 100 == 0)%Q /\ (0 # 400 == 0)%Q).
Proof.
  pose proof (open_failure_ends_only_the_thread
                both_captured [conv; relu] blind_state
                ltac:(apply run_of_reachable; vm_compute;
                      eexists; reflexivity)) as (H1 & _ & H3 & _).
  split.
  - apply (H1 0
             {| stop_event := true; power_q := []; logger := L_open_failed;
                enqueued := [] |}); vm_compute; reflexivity.
  - apply (H3 0 "Conv2d_0"
             {| duration := 4 # 100; energy := 0 # 100; avg_power := 0 # 400;
                samples := [] |}
             0 0%Q (4 # 100)%Q
             {| stop_event := true; power_q := []; logger := L_open_failed;
                enqueued := [] |}); vm_compute; reflexivity.
Defined.

(** C3, as stated, fails: the source opens for neither unit, yet the run
    reaches the end of the loop with a result for each of the two units and
    no unit reported as failed. *)
Lemma open_failure_counterexample :
  exec blind_trace (init both_captured [conv; relu] 0) = Some blind_state
  /\ map logger (sessions blind_state) = [L_open_failed; L_open_failed]
  /\ pc blind_state = M_export
  /\ map verdict (stdout blind_state)
     = [("Conv2d_0", Measured); ("ReLU_1", Measured)]
  /\ map fst (results blind_state) = ["Conv2d_0"; "ReLU_1"]
  /\ map (fun r => samples r.2) (results blind_state) = [[]; []]
  /\ map (fun r => energy r.2) (results blind_state)
     = [0 # 100; 0 # 100]%Q.
Proof. vm_compute. repeat split. Qed.

(** C4, as the program has it.  When [jetson.stats] raises, the iteration
    enqueues nothing and the thread is over: the loop does not go on, and
    nothing is enqueued in that session ever after.  When the reading
    carries no "Power TOT" entry, the iteration goes on with 0 mW: it
    enqueues a sample of 0 W, stamped with the clock, and the loop
    continues. *)
Theorem failed_read_ends_the_logger s i ses :
  sessions s !! i = Some ses ->
  logger ses = L_read ->
  (let s1 := with_sessions (<[i := at_pc L_read_failed ses]> (sessions s)) s in
   step (Logger i Unavailable) s = Some s1
   /\ forall tr s', exec tr s1 = Some s' ->
        exists ses', sessions s' !! i = Some ses'
          /\ logger ses' = L_read_failed
          /\ enqueued ses' = enqueued ses)
  /\ (forall stats src1 src2,
         stats !! "Power TOT" = None ->
         let x := (now s, power_of stats) in
         (power_of stats == 0)%Q
         /\ exec [Logger i (Reading stats); Logger i src1; Logger i src2] s
            = Some (with_sessions
                      (<[i := at_pc L_nap (put x ses)]> (sessions s)) s)).
Proof.
  intros Hi Hl. pose proof (lookup_lt_Some _ _ _ Hi) as Hlt. split.
  - cbn zeta. split.
    + simpl. rewrite Hi. simpl. unfold logger_step. by rewrite Hl.
    + intros tr s' Hrun.
      assert (sessions
                (with_sessions (<[i:=at_pc L_read_failed ses]> (sessions s))
                   s)
                !! i = Some (at_pc L_read_failed ses)) as Hi1.
      { simpl. by apply list_lookup_insert_eq. }
      destruct (exec_after_termination _ _ _ _ _ Hrun Hi1 eq_refl)
        as (ses' & Hi' & Hl' & He' & _).
      exists ses'. done.
  - intros stats src1 src2 Hnone. cbn zeta. split.
    + unfold power_of. rewrite Hnone. reflexivity.
    + cbn [exec].
      erewrite step_logger;
        [| exact Hi | unfold logger_step; rewrite Hl; reflexivity ].
      cbn [mbind option_bind].
      erewrite step_logger;
        [| simpl; by apply list_lookup_insert_eq | reflexivity ].
      cbn [mbind option_bind].
      erewrite step_logger;
        [| simpl; apply list_lookup_insert_eq; by rewrite length_insert
         | reflexivity ].
      cbn [mbind option_bind]. unfold with_sessions. simpl.
      by rewrite !list_insert_insert_eq.
Qed.

(** The first thread of the sample run, about to read the source. *)
Lemma failed_read_ends_the_logger_witness :
  let ses := {| stop_event := false; power_q := []; logger := L_read;
                enqueued := [] |} in
  sessions reading_state !! 0 = Some ses
  /\ step (Logger 0 Unavailable) reading_state
     = Some (with_sessions
               (<[0 := at_pc L_read_failed ses]> (sessions reading_state))
               reading_state)
  /\ (power_of ∅ == 0)%Q
  /\ exec [Logger 0 (Reading ∅); Logger 0 five_watts; Logger 0 five_watts]
       reading_state
     = Some (with_sessions
               (<[0 := at_pc L_nap (put (now reading_state, power_of ∅) ses)]>
                  (sessions reading_state))
               reading_state).
Proof.
  cbn zeta.
  assert (sessions reading_state !! 0
          = Some {| stop_event := false; power_q := []; logger := L_read;
                    enqueued := [] |}) as Hi by (vm_compute; reflexivity).
  pose proof (failed_read_ends_the_logger reading_state 0 _ Hi eq_refl)
    as [[H1 _] H2].
  split; [exact Hi |]. split; [exact H1 |].
  exact (H2 ∅ five_watts five_watts (lookup_empty _)).
Defined.

(** C4, as stated, fails on both kinds of failed read.  When the read
    raises, the loop does not continue: the thread is over and no statement
    of it can run.  When the reading lacks the power entry, the iteration is
    not skipped: a sample of 0 W is enqueued. *)
Lemma failed_read_counterexample :
  (exists s1,
      step (Logger 0 Unavailable) reading_state = Some s1
      /\ map logger (sessions s1) = [L_read_failed]
      /\ step (Logger 0 five_watts) s1 = None
      /\ step (Logger 0 Unavailable) s1 = None)
  /\ (exists s3,
         exec [Logger 0 (Reading ∅); Logger 0 five_watts; Logger 0 five_watts]
           reading_state = Some s3
         /\ map power_q (sessions reading_state) = [[]]
         /\ map power_q (sessions s3) = [[(0, 0 # 1000)]]%Q).
Proof.
  split.
  - eexists. split; [vm_compute; reflexivity |]. vm_compute. done.
  - eexists. split; [vm_compute; reflexivity |]. vm_compute. done.
Qed.

(** The three fates partition the layers. *)
Lemma fates_partition v :
  length (with_fate Measured v) + length (with_fate Failed v)
  + length (with_fate Skipped v) = length v.
Proof.
  unfold with_fate. rewrite !length_map.
  induction v as [| [name f] v IH]; simpl; [done |].
  destruct f; simpl; lia.
Qed.

(** As long as no unit has failed, at most one thread is inside
    [with jtop()]: lines 47-48 end the thread of a unit before the next one
    starts. *)
Lemma one_sampler_while_no_unit_fails inputs layers s :
  reachable inputs layers s -> no_failure (stdout s) -> connections s <= 1.
Proof.
  intros Hreach Hout.
  destruct (reachable_inv _ _ _ Hreach) as (_ & _ & _ & _ & _ & Htidy).
  unfold connections.
  apply (filter_at_one_index _ _
           (match progress (pc s) with
            | Some (j, _) => job_session j
            | None => 0
            end)).
  intros i ses Hi Hconn.
  assert (terminated (logger ses) = false) as Hlive
    by (destruct (logger ses); done).
  destruct (Htidy Hout i ses Hi Hlive) as (j & n & -> & <-). done.
Qed.

(** C9 fails on the program where a unit raises.  The first layer raises in
    its warm-up: line 47 is never reached for it, so its thread is not told
    to stop and stays inside [with jtop()]; the next unit starts a second
    thread, which opens the source while the first still holds it.  (Where
    no unit raises there is one sampler at a time:
    [one_sampler_while_no_unit_fails].) *)
Lemma abandoned_unit_leaves_sampler_running :
  exec leaking_trace (init both_captured [broken; relu] 0)
  = Some leaking_state
  /\ map verdict (stdout leaking_state) = [("Conv2d_0", Failed)]
  /\ progress (pc leaking_state)
     = Some ({| job_layer := relu; job_name := "ReLU_1"; job_input := 8;
                job_session := 1 |}, 0)
  /\ map stop_event (sessions leaking_state) = [false; false]
  /\ map (fun ses => connected (logger ses)) (sessions leaking_state)
     = [true; true]
  /\ connections leaking_state = 2.
Proof. vm_compute. repeat split. Qed.

(** * Further properties *)

(** ** Properties of every session, kept by every statement *)

Section SessionInvariant.

Variable P : Q -> session -> Prop.
Variable good : source -> Prop.

Hypothesis P_fresh : forall t, P t fresh_session.
Hypothesis P_later : forall t t' ses, (t <= t')%Q -> P t ses -> P t' ses.
Hypothesis P_stop : forall t ses, P t ses -> P t (set_stop ses).
Hypothesis P_queue : forall t q ses, P t ses -> P t (with_queue q ses).
Hypothesis P_logger :
  forall t src ses ses',
    good src -> logger_step t src ses = Some ses' -> P t ses -> P t ses'.

Lemma per_session_step ev s s' :
  sources good ev -> step ev s = Some s' ->
  Forall (P (now s)) (sessions s) -> Forall (P (now s')) (sessions s').
Proof.
  intros Hgood Hstep Hinv. destruct ev as [d | | i src]; simpl in Hstep.
  - destruct (Qle_bool 0 d) eqn:Hd; simplify_eq. simpl.
    apply Qle_bool_iff in Hd.
    eapply Forall_impl; [exact Hinv |]. intros ses. apply P_later. lra.
  - main_cases Hstep; try done; simpl.
    + apply Forall_app. split; [done |]. by constructor.
    + apply Forall_insert; [done |]. apply P_stop.
      eapply (Forall_lookup_1 _ _ _ _ Hinv). eassumption.
    + apply Forall_insert; [done |]. apply P_queue.
      eapply (Forall_lookup_1 _ _ _ _ Hinv). eassumption.
  - destruct (sessions s !! i) as [ses |] eqn:E; simpl in Hstep; [| done].
    destruct (logger_step (now s) src ses) as [ses' |] eqn:E';
      simpl in Hstep; simplify_eq.
    simpl. apply Forall_insert; [done |].
    eapply P_logger; [exact Hgood | exact E' |].
    eapply (Forall_lookup_1 _ _ _ _ Hinv). eassumption.
Qed.

Lemma per_session_exec tr s s' :
  Forall (sources good) tr -> exec tr s = Some s' ->
  Forall (P (now s)) (sessions s) -> Forall (P (now s')) (sessions s').
Proof.
  revert s. induction tr as [| ev tr IH]; intros s Hgood Hrun Hinv.
  - simpl in Hrun. by simplify_eq.
  - simpl in Hrun. destruct (step ev s) as [s1 |] eqn:E; [| done].
    simpl in Hrun. inversion Hgood; subst.
    eapply IH; [done | exact Hrun |]. by eapply per_session_step.
Qed.

End SessionInvariant.

Lemma sources_any tr : Forall (sources (fun _ => True)) tr.
Proof. apply Forall_forall. intros ev _. by destruct ev. Qed.

(** ** The spacing of the samples (lines 22-27) *)

Lemma chain_snoc lo l x :
  l <> [] -> chain lo l ->
  (forall y, last l = Some y -> (y.1 + POLL_INTERVAL <= x.1)%Q) ->
  chain lo (l ++ [x]).
Proof.
  revert lo. induction l as [| a l IH]; intros lo Hne Hc Hlast; [done |].
  destruct l as [| b l].
  - simpl in *. destruct Hc as [Ha _]. split_and!; try done.
    by apply Hlast.
  - destruct Hc as [Ha Hc]. split; [done |].
    apply IH; [done | done |]. intros y Hy. apply Hlast. exact Hy.
Qed.

Lemma chain_lookup lo l k x y :
  chain lo l -> l !! k = Some x -> l !! S k = Some y ->
  (x.1 + POLL_INTERVAL <= y.1)%Q.
Proof.
  revert lo k. induction l as [| a l IH]; intros lo k Hc Hx Hy; [done |].
  destruct Hc as [_ Hc]. destruct k as [| k].
  - simpl in Hx, Hy. simplify_eq. destruct l as [| b l]; [done |].
    simpl in Hy. simplify_eq. by destruct Hc.
  - simpl in Hx, Hy. by eapply IH.
Qed.

Lemma spaced_fresh t : spaced t fresh_session.
Proof.
  unfold spaced, next_stamp_from. simpl. split_and!; try done.
Qed.

Lemma spaced_later t t' ses : (t <= t')%Q -> spaced t ses -> spaced t' ses.
Proof.
  unfold spaced, next_stamp_from. intros Hle (Hc & Hpast & Hnext).
  split_and!; try done.
  - eapply Forall_impl; [exact Hpast |]. simpl. intros x Hx. lra.
  - destruct (logger ses); try done.
    1-4: intros x Hx; specialize (Hnext x Hx); lra.
    destruct Hnext as [Hts Hnext]. split; [lra | done].
Qed.

Lemma spaced_logger t src ses ses' :
  logger_step t src ses = Some ses' -> spaced t ses -> spaced t ses'.
Proof.
  unfold logger_step, spaced, next_stamp_from.
  intros Hstep (Hc & Hpast & Hnext).
  destruct (logger ses) eqn:E.
  5: { (* line 26: the sample is put *)
    simplify_eq. simpl. destruct Hnext as [Hts Hnext]. split_and!; try done.
    - destruct Hc as [lo Hc]. destruct (enqueued ses) as [| a l] eqn:El.
      + exists ts. simpl. split; [lra | done].
      + exists lo. apply chain_snoc; done.
    - apply Forall_app. split; [done |]. by constructor. }
  all: destruct src; destruct (stop_event ses);
    try match type of Hstep with
        | context [Qle_bool ?a ?b] =>
            destruct (Qle_bool a b) eqn:Hwake;
            [apply Qle_bool_iff in Hwake |]
        end;
    simplify_eq; simpl; split_and!; try done; try lra.
  (* what is left: the bound on the next time stamp *)
  all: intros x Hx;
    first [ specialize (Hnext x Hx); lra
          | apply last_Some_elem_of in Hx;
            rewrite Forall_forall in Hpast; specialize (Hpast x Hx);
            simpl in Hpast; lra ].
Qed.

Lemma reachable_spaced inputs layers s :
  reachable inputs layers s -> Forall (spaced (now s)) (sessions s).
Proof.
  intros (t0 & tr & Hrun).
  refine (per_session_exec spaced (fun _ => True) spaced_fresh spaced_later
            _ _ _ tr (init inputs layers t0) s (sources_any tr) Hrun _).
  - done.
  - done.
  - intros t src ses ses' _. apply spaced_logger.
  - simpl. constructor.
Qed.

(** X1. In every run, two consecutive samples of a session are stamped at
    least a polling interval apart (the thread sleeps between them), and no
    sample is stamped later than the clock reads. *)
Theorem samples_are_a_polling_interval_apart inputs layers s i ses k x y :
  reachable inputs layers s ->
  sessions s !! i = Some ses ->
  enqueued ses !! k = Some x ->
  enqueued ses !! S k = Some y ->
  (x.1 + POLL_INTERVAL <= y.1)%Q /\ (y.1 <= now s)%Q.
Proof.
  intros Hreach Hi Hx Hy.
  pose proof (Forall_lookup_1 _ _ _ _ (reachable_spaced _ _ _ Hreach) Hi)
    as ((lo & Hc) & Hpast & _).
  split; [by eapply chain_lookup |].
  apply (Forall_lookup_1 _ _ _ _ Hpast Hy).
Qed.

(** The two samples of the first session of the sample run. *)
Lemma samples_are_a_polling_interval_apart_witness :
  (0 + POLL_INTERVAL <= 2 # 100)%Q /\ (2 # 100 <= now full_state)%Q.
Proof.
  apply (samples_are_a_polling_interval_apart
           both_captured [conv; relu] full_state 0
           {| stop_event := true; power_q := []; logger := L_exit;
              enqueued := [(0, 5000 # 1000); (2 # 100, 5000 # 1000)]%Q |}
           0 (0, 5000 # 1000)%Q (2 # 100, 5000 # 1000)%Q).
  - apply run_of_reachable. vm_compute. eexists. reflexivity.
  - vm_compute. reflexivity.
  - reflexivity.
  - reflexivity.
Defined.

(** ** How many samples a window can hold *)

Lemma of_nat_S n : (of_nat (S n) == of_nat n + 1)%Q.
Proof.
  unfold of_nat. rewrite Nat2Z.inj_succ, <- Z.add_1_r, inject_Z_plus.
  reflexivity.
Qed.

Lemma of_nat_0 : of_nat 0 = 0%Q.
Proof. reflexivity. Qed.

Lemma of_nat_nonneg n : (0 <= of_nat n)%Q.
Proof.
  unfold of_nat. change 0%Q with (inject_Z 0). rewrite <- Zle_Qle. lia.
Qed.

Lemma poll_interval_positive : (0 < POLL_INTERVAL)%Q.
Proof. reflexivity. Qed.

Lemma selected_cons start end_ x l :
  selected start end_ (x :: l)
  = (if in_window start end_ x.1 then [x.2] else [])
    ++ selected start end_ l.
Proof.
  unfold selected. simpl. by destruct (in_window start end_ x.1).
Qed.

(** Past the end of the window nothing is selected. *)
Lemma chain_after_end start end_ lo l :
  chain lo l -> (end_ < lo)%Q -> selected start end_ l = [].
Proof.
  pose proof poll_interval_positive as Hp.
  revert lo. induction l as [| x l IH]; intros lo Hc Hlo; [done |].
  destruct Hc as [Hx Hc]. rewrite selected_cons.
  rewrite (IH (x.1 + POLL_INTERVAL)%Q) by (done || lra).
  destruct (in_window start end_ x.1) eqn:E; [| done].
  apply in_window_spec in E. lra.
Qed.

Lemma chain_count_from start end_ lo l :
  chain lo l -> (start <= lo)%Q -> (lo <= end_ + POLL_INTERVAL)%Q ->
  (of_nat (length (selected start end_ l)) * POLL_INTERVAL
   <= end_ + POLL_INTERVAL - lo)%Q.
Proof.
  pose proof poll_interval_positive as Hp.
  revert lo. induction l as [| x l IH]; intros lo Hc Hlo Hhi.
  - cbn [selected List.filter map length]. rewrite of_nat_0. lra.
  - destruct Hc as [Hx Hc]. rewrite selected_cons.
    destruct (in_window start end_ x.1) eqn:E.
    + apply in_window_spec in E. simpl.
      specialize (IH _ Hc). rewrite of_nat_S.
      assert (of_nat (length (selected start end_ l)) * POLL_INTERVAL
              <= end_ + POLL_INTERVAL - (x.1 + POLL_INTERVAL))%Q
        by (apply IH; lra).
      lra.
    + assert (end_ < x.1)%Q as Hpast.
      { destruct (Qlt_le_dec end_ x.1) as [H | H]; [done |].
        assert (in_window start end_ x.1 = true)
          by (apply in_window_spec; split; lra).
        congruence. }
      rewrite (chain_after_end start end_ _ _ Hc) by lra.
      cbn [length app]. rewrite of_nat_0. lra.
Qed.

(** A window of length [end_ - start] holds at most one sample more than
    polling intervals fit into it. *)
Lemma chain_count start end_ lo l :
  chain lo l -> (start <= end_)%Q ->
  (of_nat (length (selected start end_ l)) * POLL_INTERVAL
   <= end_ - start + POLL_INTERVAL)%Q.
Proof.
  pose proof poll_interval_positive as Hp.
  revert lo. induction l as [| x l IH]; intros lo Hc Hle.
  - cbn [selected List.filter map length]. rewrite of_nat_0. lra.
  - destruct (Qlt_le_dec x.1 start) as [Hbefore | Hin].
    + destruct Hc as [_ Hc]. rewrite selected_cons.
      destruct (in_window start end_ x.1) eqn:E.
      * apply in_window_spec in E. lra.
      * simpl. by eapply IH.
    + assert (chain x.1 (x :: l)) as Hc'.
      { destruct Hc as [_ Hc]. split; [lra | done]. }
      destruct (Qlt_le_dec (end_ + POLL_INTERVAL) x.1) as [Hfar | Hnear].
      * rewrite (chain_after_end start end_ _ _ Hc') by lra.
        cbn [length]. rewrite of_nat_0. lra.
      * pose proof (chain_count_from start end_ _ _ Hc' Hin Hnear). lra.
Qed.

Lemma pysum_at_most l w :
  Forall (fun p => p <= w)%Q l -> (pysum l <= of_nat (length l) * w)%Q.
Proof.
  induction 1 as [| p l Hp Hall IH].
  - cbn [length]. rewrite of_nat_0. unfold pysum. simpl. lra.
  - rewrite pysum_cons. simpl length. rewrite of_nat_S. lra.
Qed.

(** The samples of a result and the length of its window. *)
Lemma result_sample_count inputs layers s i name m :
  reachable inputs layers s ->
  results s !! i = Some (name, m) ->
  (of_nat (length (samples m)) * POLL_INTERVAL
   <= duration m + POLL_INTERVAL)%Q
  /\ energy m = (pysum (samples m) * POLL_INTERVAL)%Q.
Proof.
  intros Hreach Hi.
  destruct (reachable_recorded _ _ _ _ _ Hreach Hi)
    as ([[sid start] end_] & Hw & ses & Hses & _ & _ & Hle & Hagg).
  simpl in Hses, Hle, Hagg.
  destruct (aggregate_returns start end_ (enqueued ses))
    as (m' & Hm' & Hd & Hsam & Hen & _).
  assert (m' = m) as -> by congruence.
  pose proof (Forall_lookup_1 _ _ _ _ (reachable_spaced _ _ _ Hreach) Hses)
    as ((lo & Hc) & _).
  split; [| done]. rewrite Hsam, Hd. by eapply chain_count.
Qed.

(** X2. In every run, the number of samples counted for a unit is at most
    one more than the number of polling intervals that fit into its timed
    window: [len(samples) * POLL_INTERVAL <= duration + POLL_INTERVAL]. *)
Theorem window_holds_one_sample_per_interval inputs layers s i name m :
  reachable inputs layers s ->
  results s !! i = Some (name, m) ->
  (of_nat (length (samples m)) * POLL_INTERVAL
   <= duration m + POLL_INTERVAL)%Q.
Proof.
  intros Hreach Hi. by destruct (result_sample_count _ _ _ _ _ _ Hreach Hi).
Qed.

(** The first result of the sample run: two samples in 40 ms. *)
Lemma window_holds_one_sample_per_interval_witness :
  (of_nat 2 * POLL_INTERVAL <= (400 # 10000) + POLL_INTERVAL)%Q.
Proof.
  apply (window_holds_one_sample_per_interval
           both_captured [conv; relu] full_state 0 "Conv2d_0"
           {| duration := 400 # 10000; energy := 20000000 # 100000000;
              avg_power := 200000000000 # 40000000000;
              samples := [5000 # 1000; 5000 # 1000]%Q |}).
  - apply run_of_reachable. vm_compute. eexists. reflexivity.
  - vm_compute. reflexivity.
Defined.

(** X3. In every run, if no sample counted for a unit exceeds [w] watts,
    the energy reported for the unit is at most [w] times the duration
    extended by one polling interval: the fixed-interval sum overshoots by
    at most one sample. *)
Theorem energy_overshoots_by_one_sample inputs layers s i name m w :
  reachable inputs layers s ->
  results s !! i = Some (name, m) ->
  (0 <= w)%Q ->
  Forall (fun p => p <= w)%Q (samples m) ->
  (energy m <= w * (duration m + POLL_INTERVAL))%Q.
Proof.
  intros Hreach Hi Hw Hall.
  destruct (result_sample_count _ _ _ _ _ _ Hreach Hi) as [Hcount ->].
  pose proof (pysum_at_most _ _ Hall) as Hsum.
  pose proof poll_interval_positive as Hp.
  pose proof (of_nat_nonneg (length (samples m))) as Hn.
  assert (pysum (samples m) * POLL_INTERVAL
          <= of_nat (length (samples m)) * w * POLL_INTERVAL)%Q as H1.
  { apply Qmult_le_compat_r; lra. }
  assert (w * (of_nat (length (samples m)) * POLL_INTERVAL)
          <= w * (duration m + POLL_INTERVAL))%Q as H2.
  { rewrite !(Qmult_comm w). apply Qmult_le_compat_r; lra. }
  lra.
Qed.

(** The first result of the sample run: 0.2 J at 5 W over 40 ms. *)
Lemma energy_overshoots_by_one_sample_witness :
  (20000000 # 100000000 <= 5 * ((400 # 10000) + POLL_INTERVAL))%Q.
Proof.
  apply (energy_overshoots_by_one_sample
           both_captured [conv; relu] full_state 0 "Conv2d_0"
           {| duration := 400 # 10000; energy := 20000000 # 100000000;
              avg_power := 200000000000 # 40000000000;
              samples := [5000 # 1000; 5000 # 1000]%Q |} 5%Q).
  - apply run_of_reachable. vm_compute. eexists. reflexivity.
  - vm_compute. reflexivity.
  - intros H. discriminate H.
  - repeat constructor; intros H; discriminate H.
Defined.

(** ** Timed windows and the wall clock *)

Lemma elapsed_outside t0 s :
  elapsed_inv t0 s -> (0 <= total_duration s /\ t0 + total_duration s <= now s)%Q.
Proof.
  unfold elapsed_inv. intros [H0 H]. split; [done |].
  destruct (pc s); lra.
Qed.

Lemma elapsed_after_warmup t0 s j k :
  (0 <= total_duration s)%Q -> (t0 + total_duration s <= now s)%Q ->
  elapsed_inv t0 (goto (after_warmup j k) s).
Proof.
  intros H0 H. unfold elapsed_inv, after_warmup. cbn [pc goto].
  destruct (k <? WARMUP); cbn [total_duration now]; done.
Qed.

Lemma elapsed_after_timed t0 s j start k :
  (0 <= total_duration s)%Q ->
  (t0 + total_duration s <= start)%Q -> (start <= now s)%Q ->
  elapsed_inv t0 (goto (after_timed j start k) s).
Proof.
  intros H0 H1 H2. unfold elapsed_inv, after_timed. cbn [pc goto].
  destruct (k <? NUM_REPEATS); cbn [total_duration now]; done.
Qed.

Lemma elapsed_step t0 ev s s' :
  elapsed_inv t0 s -> step ev s = Some s' -> elapsed_inv t0 s'.
Proof.
  intros Hinv Hstep. pose proof (elapsed_outside _ _ Hinv) as [H0 Hnow].
  destruct ev as [d | | i src]; simpl in Hstep.
  - destruct (Qle_bool 0 d) eqn:Hd; simplify_eq.
    apply Qle_bool_iff in Hd. unfold elapsed_inv in *.
    cbn [pc total_duration now]. destruct Hinv as [_ Hinv].
    split; [done |]. destruct (pc s); lra.
  - unfold elapsed_inv in Hinv. destruct Hinv as [_ Hinv].
    main_cases Hstep;
      match goal with H : pc s = _ |- _ => try rewrite H in Hinv end;
      try (by apply (elapsed_after_warmup t0 (with_sessions _ (advance _ s))));
      try (by apply (elapsed_after_warmup t0 (note Call s)));
      try (apply (elapsed_after_timed t0 (note Start s)); simpl; lra);
      try (apply (elapsed_after_timed t0 (note Call s)); simpl; lra);
      try (unfold elapsed_inv; simpl;
           try match goal with H : pc s = _ |- _ => rewrite H end;
           split; [done | lra]).
    (* lines 56-59 and 90-93: the window is added to the total *)
    match goal with
    | H : summarize ?a ?b ?c = Ok ?m |- _ =>
        destruct (summarize_returns a b c) as (m' & Hm' & Hd & _);
        assert (m' = m) as -> by congruence
    end.
    unfold elapsed_inv. simpl. rewrite Hd. split; lra.
  - destruct (sessions s !! i) as [ses |]; simpl in Hstep; [| done].
    destruct (logger_step (now s) src ses); simpl in Hstep; by simplify_eq.
Qed.

(** X4. In every run started when the clock reads [t0], the timed windows
    are disjoint stretches of the time gone by: [total_duration] is never
    negative and never more than the time elapsed since [t0]. *)
Theorem total_duration_within_elapsed_time inputs layers t0 tr s :
  exec tr (init inputs layers t0) = Some s ->
  (0 <= total_duration s)%Q /\ (total_duration s <= now s - t0)%Q.
Proof.
  intros Hrun.
  assert (elapsed_inv t0 s) as Hinv.
  { eapply (exec_invariant (elapsed_inv t0)); [| | exact Hrun].
    - intros ev s1 s2. apply elapsed_step.
    - unfold elapsed_inv. simpl. split; lra. }
  destruct (elapsed_outside _ _ Hinv). split; lra.
Qed.

(** The sample run: two windows of 40 ms in 80 ms. *)
Lemma total_duration_within_elapsed_time_witness :
  (0 <= total_duration full_state)%Q
  /\ (total_duration full_state <= now full_state - 0)%Q.
Proof.
  apply (total_duration_within_elapsed_time
           both_captured [conv; relu] 0%Q full_trace full_state).
  vm_compute. reflexivity.
Defined.

(** ** Who is told to stop (lines 22 and 47) *)

Lemma logger_exit_after_stop t src ses ses' :
  logger_step t src ses = Some ses' ->
  (logger ses = L_exit -> stop_event ses = true) ->
  logger ses' = L_exit -> stop_event ses' = true.
Proof.
  unfold logger_step. intros Hstep Hold Hnew.
  destruct (logger ses) eqn:E, src; repeat case_match; simplify_eq;
    simpl in *; done.
Qed.

(** What a statement of the main thread does to the sessions: it starts a
    fresh one, or leaves thread and history alone, setting the stop flag
    only at line 47 and only for the session of its unit. *)
Lemma main_step_session s s' i ses' :
  main_step s = Some s' -> sessions s' !! i = Some ses' ->
  (ses' = fresh_session /\ sessions s !! i = None)
  \/ (exists ses,
         sessions s !! i = Some ses
         /\ logger ses' = logger ses
         /\ enqueued ses' = enqueued ses
         /\ (stop_event ses' = stop_event ses
             \/ (stop_event ses' = true
                 /\ exists j start end_,
                     pc s' = M_join j start end_ /\ job_session j = i))).
Proof.
  intros Hstep Hi.
  main_cases Hstep; simpl in Hi; try (right; exists ses'; by eauto).
  - (* lines 31-34 *)
    destruct (decide (i < length (sessions s))) as [Hlt | Hge].
    + rewrite lookup_app_l in Hi by done. right. exists ses'. eauto.
    + rewrite lookup_app_r in Hi by lia.
      destruct (i - length (sessions s)) as [| n] eqn:En; [| done].
      simpl in Hi. simplify_eq. left. split; [done |].
      apply lookup_ge_None. lia.
  - (* line 47 *)
    destruct (decide (job_session j = i)) as [Heq | Hne].
    + rewrite Heq in *.
      rewrite list_lookup_insert_eq in Hi by (by eapply lookup_lt_Some).
      simplify_eq. right. eexists. split; [eassumption |]. simpl.
      split_and!; try done. right. split; [done |]. eauto.
    + rewrite list_lookup_insert_ne in Hi by done. right. exists ses'. eauto.
  - (* line 53 *)
    destruct (decide (job_session j = i)) as [Heq | Hne].
    + rewrite Heq in *.
      rewrite list_lookup_insert_eq in Hi by (by eapply lookup_lt_Some).
      simplify_eq. right. eexists. split; [eassumption |]. simpl. eauto.
    + rewrite list_lookup_insert_ne in Hi by done. right. exists ses'. eauto.
Qed.

Lemma completed_main_step s s' i :
  main_step s = Some s' -> unit_completed s i -> unit_completed s' i.
Proof.
  intros Hstep [(j & start & end_ & Hpc & Hj) | (k & start & end_ & Hk)].
  - destruct Hpc as [Hpc | [acc Hpc]];
      unfold main_step in Hstep; rewrite Hpc in Hstep;
      destruct (sessions s !! job_session j) as [ses |]; simpl in Hstep;
      try done.
    + destruct (terminated (logger ses)); simplify_eq.
      left. exists j, start, end_. split; [| done]. right. by eexists.
    + destruct (power_q ses) as [| x q].
      * destruct (summarize_returns start end_ acc) as (m & Hm & _).
        rewrite Hm in Hstep. simplify_eq. right.
        exists (length (measured s)), start, end_. simpl.
        by apply list_lookup_middle.
      * simplify_eq. left. exists j, start, end_. split; [| done].
        right. by eexists.
  - right. exists k, start, end_.
    main_cases Hstep; simpl; try done. by apply lookup_app_l_Some.
Qed.

Lemma stop_step ev s s' :
  stop_inv s -> step ev s = Some s' -> stop_inv s'.
Proof.
  intros Hinv Hstep. destruct ev as [d | | i0 src]; simpl in Hstep.
  - case_match; simplify_eq. exact Hinv.
  - intros i ses' Hi.
    destruct (main_step_session _ _ _ _ Hstep Hi)
      as [[-> _] | (ses & Hold & Hl & _ & Hs)]; [done |].
    destruct (Hinv i ses Hold) as [Hexit Hdone]. split.
    + rewrite Hl. intros Hx. specialize (Hexit Hx).
      destruct Hs as [-> | [-> _]]; done.
    + intros Hstop. destruct Hs as [Hs | (_ & j & start & end_ & Hpc & Hj)].
      * apply (completed_main_step _ _ _ Hstep). apply Hdone. congruence.
      * left. exists j, start, end_. eauto.
  - destruct (sessions s !! i0) as [ses0 |] eqn:E0; simpl in Hstep; [| done].
    destruct (logger_step (now s) src ses0) as [ses1 |] eqn:E1;
      simpl in Hstep; simplify_eq.
    intros i ses' Hi. simpl in Hi.
    destruct (decide (i0 = i)) as [-> | Hne].
    + rewrite list_lookup_insert_eq in Hi by (by eapply lookup_lt_Some).
      simplify_eq. destruct (Hinv i ses0 E0) as [Hexit Hdone]. split.
      * by eapply logger_exit_after_stop.
      * destruct (logger_step_puts _ _ _ _ E1) as [-> _]. exact Hdone.
    + rewrite list_lookup_insert_ne in Hi by done. by apply Hinv.
Qed.

(** X5. In every run, a logger thread leaves its loop through line 22 only
    after its stop event was set, and a stop event is set only for the
    session of a unit that has made all its calls: the one being joined or
    drained, or the one of a recorded result.  So the thread of a unit that
    was abandoned is never told to stop. *)
Theorem only_completed_units_stop_their_sampler inputs layers s i ses :
  reachable inputs layers s ->
  sessions s !! i = Some ses ->
  (logger ses = L_exit -> stop_event ses = true)
  /\ (stop_event ses = true -> unit_completed s i).
Proof.
  intros Hreach. revert i ses.
  apply (reachable_invariant inputs layers stop_inv); [| | exact Hreach].
  - intros t0 i ses Hi. done.
  - intros ev s1 s2. apply stop_step.
Qed.

(** The first session of the sample run: its thread returned, its stop
    event is set, and its unit is the first recorded result. *)
Lemma only_completed_units_stop_their_sampler_witness :
  stop_event {| stop_event := true; power_q := []; logger := L_exit;
                enqueued := [(0, 5000 # 1000); (2 # 100, 5000 # 1000)]%Q |}
  = true
  /\ unit_completed full_state 0.
Proof.
  pose proof (only_completed_units_stop_their_sampler
                both_captured [conv; relu] full_state 0
                {| stop_event := true; power_q := []; logger := L_exit;
                   enqueued := [(0, 5000 # 1000); (2 # 100, 5000 # 1000)]%Q |}
                ltac:(apply run_of_reachable; vm_compute;
                      eexists; reflexivity)
                ltac:(vm_compute; reflexivity)) as [H1 H2].
  split; [exact (H1 eq_refl) | exact (H2 eq_refl)].
Defined.

(** ** The last sample after the stop event is set *)

Lemma logger_step_after_stop t src ses ses' :
  stop_event ses = true -> logger_step t src ses = Some ses' ->
  stop_event ses' = true
  /\ exists tail,
      enqueued ses' = enqueued ses ++ tail
      /\ length tail + in_flight (logger ses') <= in_flight (logger ses).
Proof.
  unfold logger_step. intros Hstop Hstep. rewrite Hstop in Hstep.
  destruct (logger ses) eqn:E.
  5: { simplify_eq. simpl. split; [done |]. exists [(ts, power)]. done. }
  all: destruct src; repeat case_match; simplify_eq; simpl;
    (split; [done |]); exists []; rewrite app_nil_r; simpl; split; done || lia.
Qed.

Lemma main_step_sessions_grow s s' :
  main_step s = Some s' -> length (sessions s) <= length (sessions s').
Proof.
  intros Hstep. main_cases Hstep; simpl;
    rewrite ?length_app, ?length_insert; simpl; lia.
Qed.

Lemma step_after_stop ev s s' i ses :
  step ev s = Some s' ->
  sessions s !! i = Some ses -> stop_event ses = true ->
  exists ses' tail,
    sessions s' !! i = Some ses'
    /\ stop_event ses' = true
    /\ enqueued ses' = enqueued ses ++ tail
    /\ length tail + in_flight (logger ses') <= in_flight (logger ses).
Proof.
  intros Hstep Hi Hstop. destruct ev as [d | | i0 src]; simpl in Hstep.
  - case_match; simplify_eq. exists ses, []. rewrite app_nil_r. simpl.
    split_and!; try done; try lia.
  - pose proof (main_step_sessions_grow _ _ Hstep) as Hlen.
    pose proof (lookup_lt_Some _ _ _ Hi) as Hlt.
    destruct (lookup_lt_is_Some_2 (sessions s') i) as [ses' Hi']; [lia |].
    destruct (main_step_session _ _ _ _ Hstep Hi')
      as [[_ Hnone] | (ses0 & Hold & Hl & He & Hs)]; [congruence |].
    assert (ses0 = ses) as -> by congruence.
    exists ses', []. rewrite app_nil_r, Hl. simpl.
    split_and!; try done; try lia.
    destruct Hs as [-> | [-> _]]; done.
  - destruct (sessions s !! i0) as [ses0 |] eqn:E0; simpl in Hstep; [| done].
    destruct (logger_step (now s) src ses0) as [ses1 |] eqn:E1;
      simpl in Hstep; simplify_eq.
    destruct (decide (i0 = i)) as [-> | Hne].
    + assert (ses0 = ses) as -> by congruence.
      destruct (logger_step_after_stop _ _ _ _ Hstop E1)
        as (Hs & tail & He & Hb).
      exists ses1, tail. simpl. split_and!; try done.
      apply list_lookup_insert_eq. by eapply lookup_lt_Some.
    + exists ses, []. rewrite app_nil_r. simpl.
      rewrite list_lookup_insert_ne by done. split_and!; try done; try lia.
Qed.

Lemma exec_after_stop tr s s' i ses :
  exec tr s = Some s' ->
  sessions s !! i = Some ses -> stop_event ses = true ->
  exists ses' tail,
    sessions s' !! i = Some ses'
    /\ stop_event ses' = true
    /\ enqueued ses' = enqueued ses ++ tail
    /\ length tail + in_flight (logger ses') <= in_flight (logger ses).
Proof.
  revert s ses. induction tr as [| ev tr IH]; intros s ses Hrun Hi Hstop.
  - simpl in Hrun. simplify_eq. exists ses, []. rewrite app_nil_r. simpl.
    split_and!; try done; try lia.
  - simpl in Hrun. destruct (step ev s) as [s1 |] eqn:E; [| done].
    simpl in Hrun.
    destruct (step_after_stop _ _ _ _ _ E Hi Hstop)
      as (ses1 & tail1 & Hi1 & Hs1 & He1 & Hb1).
    destruct (IH _ _ Hrun Hi1 Hs1) as (ses' & tail2 & Hi' & Hs' & He' & Hb').
    exists ses', (tail1 ++ tail2). rewrite length_app, He', He1.
    split_and!; try done; try lia; by rewrite app_assoc.
Qed.

(** X6. Once the stop event of a session is set, whatever runs afterwards
    adds at most one sample to that session: the one whose reading was
    under way (lines 23-26); a thread that stands anywhere else adds none.
    The flag is never cleared. *)
Theorem at_most_one_sample_after_stop tr s s' i ses :
  sessions s !! i = Some ses ->
  stop_event ses = true ->
  exec tr s = Some s' ->
  exists ses' tail,
    sessions s' !! i = Some ses'
    /\ stop_event ses' = true
    /\ enqueued ses' = enqueued ses ++ tail
    /\ length tail <= in_flight (logger ses)
    /\ in_flight (logger ses) <= 1.
Proof.
  intros Hi Hstop Hrun.
  destruct (exec_after_stop _ _ _ _ _ Hrun Hi Hstop)
    as (ses' & tail & Hi' & Hs' & He' & Hb').
  exists ses', tail. split_and!; try done; try lia.
  destruct (logger ses); simpl; lia.
Qed.

(** The stop event is set while the thread is about to read the source: the
    reading under way is still enqueued. *)
Lemma at_most_one_sample_after_stop_witness :
  exists s',
    exec tail_sample_trace late_stop_state = Some s'
    /\ exists ses' tail,
        sessions s' !! 0 = Some ses'
        /\ stop_event ses' = true
        /\ enqueued ses'
           = [(0, 5000 # 1000); (2 # 100, 5000 # 1000)]%Q ++ tail
        /\ length tail <= 1
        /\ 1 <= 1.
Proof.
  destruct (exec tail_sample_trace late_stop_state) as [s' |] eqn:Hrun;
    [| vm_compute in Hrun; discriminate Hrun].
  exists s'. split; [reflexivity |].
  apply (at_most_one_sample_after_stop
           tail_sample_trace late_stop_state s' 0
           {| stop_event := true;
              power_q := [(0, 5000 # 1000); (2 # 100, 5000 # 1000)]%Q;
              logger := L_read;
              enqueued := [(0, 5000 # 1000); (2 # 100, 5000 # 1000)]%Q |}).
  - vm_compute. reflexivity.
  - reflexivity.
  - exact Hrun.
Defined.

(** ** Where the main thread waits (line 48) *)

(** X7. In every run, the main thread cannot run its next statement exactly
    when the loop over the layers is over, or when it stands in [join] and
    the thread of its session is not over: nothing else ever blocks it. *)
Theorem main_thread_waits_only_in_join inputs layers s :
  reachable inputs layers s ->
  step Main s = None
  <-> pc s = M_export
      \/ exists j start end_ ses,
           pc s = M_join j start end_
           /\ sessions s !! job_session j = Some ses
           /\ terminated (logger ses) = false.
Proof.
  intros Hreach.
  destruct (reachable_inv _ _ _ Hreach) as (_ & Hses & _).
  unfold session_inv in Hses. simpl. unfold main_step. split.
  - intros Hnone. destruct (pc s) eqn:E; try done; try (by left).
    + repeat case_match; done.
    + destruct Hses as (ses & Hi & _). by rewrite Hi in Hnone.
    + destruct Hses as (ses & Hi & _). rewrite Hi in Hnone. simpl in Hnone.
      destruct (terminated (logger ses)) eqn:Ht; [done |].
      right. by exists j, start, end_, ses.
    + destruct Hses as (ses & got & Hi & _). rewrite Hi in Hnone.
      simpl in Hnone. repeat case_match; done.
  - intros [-> | (j & start & end_ & ses & -> & Hi & Ht)]; [done |].
    rewrite Hi. simpl. by rewrite Ht.
Qed.

(** The first unit of the sample run, stopped but not yet over. *)
Lemma main_thread_waits_only_in_join_witness :
  step Main waiting_state = None.
Proof.
  apply (main_thread_waits_only_in_join both_captured [conv; relu]
           waiting_state).
  - apply run_of_reachable. vm_compute. eexists. reflexivity.
  - right.
    exists {| job_layer := conv; job_name := "Conv2d_0"; job_input := 7;
              job_session := 0 |}, 0%Q, (400 # 10000)%Q,
           {| stop_event := true;
              power_q := [(0, 5000 # 1000); (2 # 100, 5000 # 1000)]%Q;
              logger := L_test;
              enqueued := [(0, 5000 # 1000); (2 # 100, 5000 # 1000)]%Q |}.
    vm_compute. done.
Defined.

(** ** After the stop event is set, [join] can return *)

Lemma thread_exec_lifts tr s i ses t' ses' :
  Forall (concerns i) tr ->
  sessions s !! i = Some ses ->
  thread_exec tr (now s) ses = Some (t', ses') ->
  exists s', exec tr s = Some s'
    /\ pc s' = pc s /\ now s' = t' /\ sessions s' !! i = Some ses'.
Proof.
  revert s ses. induction tr as [| ev tr IH]; intros s ses Hall Hi Hrun.
  - simpl in Hrun. simplify_eq. by exists s.
  - inversion Hall as [| ? ? Hev Htr]; subst. simpl in Hrun.
    destruct (thread_step ev (now s) ses) as [[t1 ses1] |] eqn:E; [| done].
    simpl in Hrun. destruct ev as [d | | k src]; simpl in Hev, E; [| done |].
    + destruct (Qle_bool 0 d) eqn:Hd; simplify_eq.
      destruct (IH {| now := (now s + d)%Q; layer_inputs := layer_inputs s;
                      sessions := sessions s; pc := pc s;
                      pending := pending s; index := index s;
                      results := results s;
                      total_energy := total_energy s;
                      total_duration := total_duration s;
                      stdout := stdout s; timeline := timeline s;
                      measured := measured s |} ses1 Htr Hi Hrun)
        as (s' & Hs' & Hpc & Hnow & Hses).
      exists s'. simpl. rewrite Hd. simpl. done.
    + subst k.
      destruct (logger_step (now s) src ses) as [ses2 |] eqn:E2;
        simpl in E; simplify_eq.
      destruct (IH (with_sessions (<[i := ses1]> (sessions s)) s) ses1 Htr)
        as (s' & Hs' & Hpc & Hnow & Hses); [| exact Hrun |].
      { simpl. apply list_lookup_insert_eq. by eapply lookup_lt_Some. }
      exists s'. cbn [exec]. rewrite (step_logger _ _ _ _ _ Hi E2). done.
Qed.

Lemma wind_down_concerns i src t p : Forall (concerns i) (wind_down i src t p).
Proof. destruct p, src; simpl; repeat constructor. Qed.

Lemma Qle_bool_true a b : (a <= b)%Q -> Qle_bool a b = true.
Proof. apply Qle_bool_iff. Qed.

(** A thread that is told to stop comes to its end, wherever it stands and
    however the source behaves. *)
Ltac thread_go :=
  cbn [wind_down app thread_exec thread_step logger_step logger stop_event
         at_pc put mbind option_bind fst snd].

Lemma wind_down_ends i src t ses :
  stop_event ses = true ->
  exists t' ses',
    thread_exec (wind_down i src t (logger ses)) t ses = Some (t', ses')
    /\ terminated (logger ses') = true.
Proof.
  destruct ses as [st q p enq]. simpl. intros ->.
  assert (Qle_bool 0 POLL_INTERVAL = true) as Hp by reflexivity.
  assert (forall a : Q, Qle_bool (a + POLL_INTERVAL) (a + POLL_INTERVAL) = true)
    as Hsame by (intros a; apply Qle_bool_true; lra).
  destruct p, src; thread_go; rewrite ?Hp; thread_go; rewrite ?Hsame;
    thread_go; try (by eexists _, _).
  all: destruct (Qle_bool wake t) eqn:Hw;
    [ assert (Qle_bool 0 0 = true) as -> by reflexivity; thread_go;
      rewrite (Qle_bool_true wake (t + 0))
        by (apply Qle_bool_iff in Hw; lra)
    | assert (Qle_bool 0 (wake - t) = true) as ->
        by (apply Qle_bool_true;
            destruct (Qlt_le_dec t wake) as [H | H];
            [lra | apply Qle_bool_true in H; congruence]);
      thread_go;
      rewrite (Qle_bool_true wake (t + (wake - t))) by lra ];
    thread_go; by eexists _, _.
Qed.

(** X8. In every run, when the main thread stands in [join] (the stop event
    is set), its session's thread can always come to its end and [join]
    return, wherever the thread stands and however the source behaves from
    then on: at most one trip through the loop body, the time it sleeps,
    and the test of line 22.  The main thread then starts draining. *)
Theorem join_can_always_return inputs layers s j start end_ src :
  reachable inputs layers s ->
  pc s = M_join j start end_ ->
  exists ses s',
    sessions s !! job_session j = Some ses
    /\ exec (wind_down (job_session j) src (now s) (logger ses) ++ [Main]) s
       = Some s'
    /\ pc s' = M_drain j start end_ [].
Proof.
  intros Hreach Hpc.
  destruct (reachable_inv _ _ _ Hreach) as (_ & Hses & _).
  unfold session_inv in Hses. rewrite Hpc in Hses.
  destruct Hses as (ses & Hi & _ & Hstop).
  destruct (wind_down_ends (job_session j) src (now s) ses Hstop)
    as (t' & ses' & Hrun & Hterm).
  destruct (thread_exec_lifts _ _ _ _ _ _ (wind_down_concerns _ _ _ _) Hi Hrun)
    as (s1 & Hs1 & Hpc1 & _ & Hi1).
  exists ses. eexists. split; [done |].
  rewrite exec_app, Hs1. simpl. unfold main_step.
  rewrite Hpc1, Hpc, Hi1. simpl. rewrite Hterm. done.
Qed.

(** The first unit of the sample run at line 48, its thread at line 22. *)
Lemma join_can_always_return_witness :
  exists ses s',
    sessions waiting_state !! 0 = Some ses
    /\ exec (wind_down 0 five_watts (now waiting_state) (logger ses) ++ [Main])
         waiting_state = Some s'
    /\ pc s' = M_drain {| job_layer := conv; job_name := "Conv2d_0";
                          job_input := 7; job_session := 0 |}
                 0 (400 # 10000) [].
Proof.
  apply (join_can_always_return both_captured [conv; relu] waiting_state
           {| job_layer := conv; job_name := "Conv2d_0"; job_input := 7;
              job_session := 0 |} 0%Q (400 # 10000)%Q five_watts).
  - apply run_of_reachable. vm_compute. eexists. reflexivity.
  - vm_compute. reflexivity.
Defined.

(** ** The final summary (lines 122-126) *)

Lemma pysum_nonneg l : Forall (fun x => 0 <= x)%Q l -> (0 <= pysum l)%Q.
Proof.
  induction 1 as [| x l Hx Hall IH].
  - unfold pysum. simpl. lra.
  - rewrite pysum_cons. lra.
Qed.

Lemma pysum_zero l :
  Forall (fun x => 0 <= x)%Q l ->
  (pysum l <= 0)%Q <-> Forall (fun x => x == 0)%Q l.
Proof.
  induction 1 as [| x l Hx Hall IH].
  - split; [constructor |]. intros _. unfold pysum. simpl. lra.
  - pose proof (pysum_nonneg _ Hall) as Hl. rewrite pysum_cons. split.
    + intros Hsum. constructor; [lra |]. apply IH. lra.
    + intros Hz. inversion Hz as [| ? ? Hx0 Hl0]; subst.
      apply IH in Hl0. lra.
Qed.

(** Every result has a duration that is not negative. *)
Lemma reachable_results inputs layers s :
  reachable inputs layers s ->
  Forall (fun r => 0 <= duration r.2)%Q (results s).
Proof.
  intros Hreach. apply Forall_lookup. intros i [name m] Hi.
  destruct (reachable_recorded _ _ _ _ _ Hreach Hi)
    as ([[sid start] end_] & Hw & ses & Hses & _ & _ & Hle & Hagg).
  simpl in Hle, Hagg.
  destruct (aggregate_returns start end_ (enqueued ses))
    as (m' & Hm' & Hd & _).
  assert (m' = m) as -> by congruence.
  simpl. rewrite Hd. lra.
Qed.

(** X9. In every run, the final summary never divides by zero.  It shows
    "N/A" exactly when every result has duration 0 (in particular when
    there is no result); otherwise it shows the total energy divided by the
    total duration, which is then positive. *)
Theorem final_summary_is_guarded inputs layers s :
  reachable inputs layers s ->
  exists a,
    final_summary s = Ok (total_duration s, total_energy s, a)
    /\ (a = Not_available
        <-> Forall (fun r => duration r.2 == 0)%Q (results s))
    /\ (forall q, a = Average q ->
                  (0 < total_duration s)%Q
                  /\ q = (total_energy s / total_duration s)%Q).
Proof.
  intros Hreach.
  destruct (reachable_inv _ _ _ Hreach) as (_ & _ & (_ & _ & Hd) & _).
  pose proof (reachable_results _ _ _ Hreach) as Hwf.
  assert (Forall (fun x => 0 <= x)%Q
            (map (fun r : string * measurement => duration r.2) (results s)))
    as Hnonneg.
  { apply Forall_map. exact Hwf. }
  assert (Forall (fun r : string * measurement => duration r.2 == 0)%Q
            (results s)
          <-> (total_duration s <= 0)%Q) as Hzero.
  { rewrite Hd, (pysum_zero _ Hnonneg), Forall_map. reflexivity. }
  unfold final_summary, pydiv.
  destruct (Qgt_bool (total_duration s) 0) eqn:Hg.
  - apply Qgt_bool_true in Hg.
    destruct (Qeq_bool (total_duration s) 0) eqn:Hz.
    { apply Qeq_bool_iff in Hz. lra. }
    eexists. split; [reflexivity |]. split_and!.
    + split; [done |]. intros Hall. apply Hzero in Hall. lra.
    + intros q Hq. by simplify_eq.
  - apply Qgt_bool_false in Hg.
    eexists. split; [reflexivity |]. split_and!.
    + split; [| done]. intros _. by apply Hzero.
    + intros q Hq. done.
Qed.

(** The sample run: 0.4 J in 80 ms. *)
Lemma final_summary_is_guarded_witness :
  exists a,
    final_summary full_state
    = Ok (total_duration full_state, total_energy full_state, a)
    /\ (a = Not_available
        <-> Forall (fun r => duration r.2 == 0)%Q (results full_state))
    /\ (forall q, a = Average q ->
                  (0 < total_duration full_state)%Q
                  /\ q = (total_energy full_state / total_duration full_state)%Q).
Proof.
  apply (final_summary_is_guarded both_captured [conv; relu] full_state).
  apply run_of_reachable. vm_compute. eexists. reflexivity.
Defined.

(** ** Capturing the layer inputs (lines 61-74) *)

Lemma run_hooks_none module input captured captured' :
  run_hooks 0 module input captured = Some captured' -> captured' = captured.
Proof. simpl. congruence. Qed.

Lemma run_hooks_some n module input captured captured' :
  run_hooks (S n) module input captured = Some captured' ->
  exists x, head input = Some x /\ captured' = <[module := x]> captured.
Proof.
  revert captured. induction n as [| n IH]; intros captured.
  - cbn [run_hooks]. unfold save_input.
    destruct (head input) as [x |]; simpl; [| done].
    intros. simplify_eq. eauto.
  - change (run_hooks (S (S n)) module input captured)
      with (save_input module input captured ≫= run_hooks (S n) module input).
    unfold save_input at 1. destruct (head input) as [x |] eqn:E;
      [| done].
    change (run_hooks (S n) module input (<[module := x]> captured)
            = Some captured' ->
            exists x0, Some x = Some x0
                       /\ captured' = <[module := x0]> captured).
    intros H. destruct (IH _ H) as (x' & Hx' & ->).
    exists x. split; [done |]. simplify_eq. by rewrite insert_insert_eq.
Qed.

Lemma hooks_on_member layers l :
  l ∈ layers -> hooks_on layers (layer_id l) <> 0.
Proof.
  intros Hin. unfold hooks_on.
  assert (l ∈ filter (fun l' => layer_id l' = layer_id l) layers) as Hf
    by (by apply list_elem_of_filter).
  destruct (filter _ layers); [by apply elem_of_nil in Hf | done].
Qed.

Lemma capture_lookup layers calls captured result module :
  capture layers calls captured = Some result ->
  result !! module
  = match (if decide (hooks_on layers module = 0) then None
           else last_input calls module) with
    | Some x => Some x
    | None => captured !! module
    end.
Proof.
  revert captured. induction calls as [| [m input] calls IH];
    intros captured Hcap; simpl in Hcap.
  - simplify_eq. simpl. by case_decide.
  - destruct (run_hooks (hooks_on layers m) m input captured)
      as [captured1 |] eqn:E; simpl in Hcap; [| done].
    rewrite (IH _ Hcap). simpl.
    destruct (decide (hooks_on layers module = 0)) as [Hnone | Hsome].
    + destruct (hooks_on layers m) as [| n] eqn:En.
      * by rewrite (run_hooks_none _ _ _ _ E).
      * destruct (run_hooks_some _ _ _ _ _ E) as (x & _ & ->).
        rewrite lookup_insert_ne; [done | congruence].
    + destruct (last_input calls module) as [x' |]; [done |].
      destruct (hooks_on layers m) as [| n] eqn:En.
      * rewrite (run_hooks_none _ _ _ _ E).
        case_decide; [congruence | done].
      * destruct (run_hooks_some _ _ _ _ _ E) as (x & Hx & ->).
        case_decide as Hm.
        -- subst m. by rewrite Hx, lookup_insert_eq.
        -- by rewrite lookup_insert_ne.
Qed.

(** A hooked module that the forward pass calls has an input to show for
    it, once the pass has gone through. *)
Lemma captured_when_called layers calls captured result module input :
  capture layers calls captured = Some result ->
  hooks_on layers module <> 0 ->
  (module, input) ∈ calls ->
  is_Some (last_input calls module).
Proof.
  revert captured. induction calls as [| [m inp] calls IH];
    intros captured Hcap Hhook Hin; [by apply elem_of_nil in Hin |].
  simpl in Hcap.
  destruct (run_hooks (hooks_on layers m) m inp captured)
    as [captured1 |] eqn:E; simpl in Hcap; [| done].
  simpl. destruct (last_input calls module) as [x |] eqn:El; [by eexists |].
  apply elem_of_cons in Hin as [Heq | Hin].
  - simplify_eq. rewrite decide_True by done.
    destruct (hooks_on layers m) as [| n]; [done |].
    destruct (run_hooks_some _ _ _ _ _ E) as (x & -> & _). by eexists.
  - destruct (IH _ Hcap Hhook Hin) as [x Hx]. congruence.
Qed.

(** X10. When the forward pass of line 72 goes through, [layer_inputs]
    holds, for every layer of the list, the first input of the last call
    the pass made of it (a later call overwrites an earlier one), and no
    entry for a layer the pass never called; a module that is not in the
    list gets no entry at all. *)
Theorem capture_keeps_last_input layers calls inputs :
  capture layers calls ∅ = Some inputs ->
  (forall l, l ∈ layers ->
             inputs !! layer_id l = last_input calls (layer_id l))
  /\ (forall module, hooks_on layers module = 0 -> inputs !! module = None).
Proof.
  intros Hcap. split.
  - intros l Hin. rewrite (capture_lookup _ _ _ _ _ Hcap).
    rewrite decide_False by (by apply hooks_on_member).
    destruct (last_input calls (layer_id l)); [done | apply lookup_empty].
  - intros module Hnone. rewrite (capture_lookup _ _ _ _ _ Hcap).
    rewrite decide_True by done. apply lookup_empty.
Qed.

(** A pass that calls the first layer twice and a module outside the list
    once. *)
Lemma capture_keeps_last_input_witness :
  (forall l, l ∈ [conv; relu] ->
             ({[ 0 := 9; 1 := 8 ]} : gmap nat tensor) !! layer_id l
             = last_input [(0, [7]); (5, [1]); (1, [8; 3]); (0, [9])]
                 (layer_id l))
  /\ (forall module, hooks_on [conv; relu] module = 0 ->
                     ({[ 0 := 9; 1 := 8 ]} : gmap nat tensor) !! module
                     = None).
Proof.
  apply (capture_keeps_last_input [conv; relu]
           [(0, [7]); (5, [1]); (1, [8; 3]); (0, [9])]).
  vm_compute. reflexivity.
Defined.

Lemma none_skipped inputs i layers :
  (forall l, l ∈ layers -> is_Some (inputs !! layer_id l)) ->
  with_fate Skipped (verdicts inputs i layers) = [].
Proof.
  revert i. induction layers as [| l layers IH]; intros i Hall; [done |].
  simpl. unfold with_fate in *. simpl.
  destruct (Hall l) as [x Hx]; [by left |].
  unfold fate_of at 1. rewrite Hx.
  destruct (completes l); simpl; apply IH; intros l' Hl'; apply Hall;
    by right.
Qed.

(** What was printed and recorded when the loop is over. *)
Lemma export_account inputs layers s :
  reachable inputs layers s -> pc s = M_export ->
  map verdict (stdout s) = verdicts inputs 0 layers
  /\ map fst (results s) = with_fate Measured (verdicts inputs 0 layers).
Proof.
  intros Hreach Hpc.
  destruct (reachable_inv _ _ _ Hreach)
    as (_ & _ & _ & _ & (_ & done & Hout & Hres & Hprog) & _).
  rewrite Hpc in Hprog. simpl in Hprog.
  destruct Hprog as (Hlay & _ & Hpend). rewrite Hpend in Hlay by done.
  rewrite app_nil_r in Hlay. by subst done.
Qed.

(** X11. When the forward pass of line 72 goes through and calls every
    layer of the list, the loop over the layers skips none: once it is
    over, no "[SKIP]" line was printed and the number of results is the
    number of layers minus the number of layers that raised. *)
Theorem no_layer_skipped_after_full_pass layers calls inputs s :
  capture layers calls ∅ = Some inputs ->
  (forall l, l ∈ layers -> exists input, (layer_id l, input) ∈ calls) ->
  reachable inputs layers s ->
  pc s = M_export ->
  with_fate Skipped (map verdict (stdout s)) = []
  /\ length (results s)
     = length layers - length (with_fate Failed (map verdict (stdout s))).
Proof.
  intros Hcap Hcalled Hreach Hpc.
  destruct (export_account _ _ _ Hreach Hpc) as [Hout Hres].
  assert (with_fate Skipped (verdicts inputs 0 layers) = []) as Hskip.
  { apply none_skipped. intros l Hin.
    destruct (Hcalled l Hin) as [input Hinput].
    rewrite (capture_lookup _ _ _ _ _ Hcap).
    rewrite decide_False by (by apply hooks_on_member).
    destruct (captured_when_called _ _ _ _ _ _ Hcap
                (hooks_on_member _ _ Hin) Hinput) as [x ->].
    by eexists. }
  rewrite Hout. split; [done |].
  pose proof (fates_partition (verdicts inputs 0 layers)) as Hpart.
  rewrite verdicts_length, Hskip in Hpart. simpl in Hpart.
  rewrite <- (length_map fst (results s)), Hres. lia.
Qed.

(** The sample run, after a pass that calls both layers. *)
Lemma no_layer_skipped_after_full_pass_witness :
  with_fate Skipped (map verdict (stdout full_state)) = []
  /\ length (results full_state)
     = length [conv; relu]
       - length (with_fate Failed (map verdict (stdout full_state))).
Proof.
  apply (no_layer_skipped_after_full_pass [conv; relu]
           [(0, [7]); (1, [8])] both_captured full_state).
  - vm_compute. reflexivity.
  - intros l Hl. apply elem_of_cons in Hl as [-> | Hl].
    + exists [7]. by left.
    + apply list_elem_of_singleton in Hl as ->. exists [8]. right. by left.
  - apply run_of_reachable. vm_compute. eexists. reflexivity.
  - vm_compute. reflexivity.
Defined.

(** ** The sign of the results (lines 24, 53-57) *)

Lemma power_of_nonneg stats :
  (0 <= default 0 (stats !! "Power TOT"))%Z -> (0 <= power_of stats)%Q.
Proof.
  intros Hz. unfold power_of. apply Qle_shift_div_l; [reflexivity |].
  rewrite Qmult_0_l. change 0%Q with (inject_Z 0). by rewrite <- Zle_Qle.
Qed.

Lemma watts_logger t src ses ses' :
  never_negative src -> logger_step t src ses = Some ses' ->
  watts_not_negative t ses -> watts_not_negative t ses'.
Proof.
  unfold logger_step, watts_not_negative. intros Hsrc Hstep [Hall Hpc].
  destruct (logger ses) eqn:E; try done.
  - destruct src; simplify_eq; done.
  - destruct (stop_event ses); simplify_eq; done.
  - destruct src as [stats |]; simplify_eq; simpl; [| done].
    split; [done |]. by apply power_of_nonneg.
  - simplify_eq. done.
  - simplify_eq. simpl. split; [| done].
    apply Forall_app. split; [done |]. by constructor.
  - simplify_eq. done.
  - destruct (Qle_bool _ _); simplify_eq; done.
Qed.

Lemma selected_nonneg start end_ q :
  Forall (fun x => 0 <= x.2)%Q q ->
  Forall (fun p => 0 <= p)%Q (selected start end_ q).
Proof.
  intros Hall. unfold selected. apply Forall_map.
  apply Forall_forall. intros x Hx. apply list_elem_of_In in Hx.
  apply filter_In in Hx as [Hx _]. apply list_elem_of_In in Hx.
  exact (proj1 (Forall_forall _ _) Hall x Hx).
Qed.

Lemma Forall_repeat_same {A} (P : A -> Prop) x n :
  P x -> Forall P (repeat x n).
Proof. intros Hx. induction n; simpl; by constructor. Qed.

(** X12. In a run in which the source never reports a total power below
    0 mW (it may fail to open, fail to read or lack the entry), every
    recorded result has only samples that are not negative, an energy and
    an average power that are not negative, and so has the total energy. *)
Theorem results_are_not_negative inputs layers t0 tr s :
  Forall (sources never_negative) tr ->
  exec tr (init inputs layers t0) = Some s ->
  Forall (fun r => Forall (fun p => 0 <= p)%Q (samples r.2)
                   /\ (0 <= energy r.2)%Q
                   /\ (0 <= avg_power r.2)%Q) (results s)
  /\ (0 <= total_energy s)%Q.
Proof.
  intros Hsrc Hrun.
  assert (reachable inputs layers s) as Hreach by (exists t0, tr; done).
  assert (Forall (watts_not_negative (now s)) (sessions s)) as Hses.
  { refine (per_session_exec watts_not_negative never_negative _ _ _ _
              watts_logger tr (init inputs layers t0) s Hsrc Hrun _).
    - intros t. split; [constructor | done].
    - done.
    - done.
    - done.
    - simpl. constructor. }
  assert (Forall (fun r => Forall (fun p => 0 <= p)%Q (samples r.2)
                           /\ (0 <= energy r.2)%Q
                           /\ (0 <= avg_power r.2)%Q) (results s)) as Hres.
  { apply Forall_lookup. intros i [name m] Hi.
    destruct (reachable_recorded _ _ _ _ _ Hreach Hi)
      as ([[sid start] end_] & Hw & ses & Hlook & _ & _ & Hle & Hagg).
    simpl in Hlook, Hle, Hagg.
    destruct (aggregate_returns start end_ (enqueued ses))
      as (m' & Hm' & Hd & Hsam & Hen & Havg).
    rewrite Hm' in Hagg. simplify_eq. simpl.
    destruct (Forall_lookup_1 _ _ _ _ Hses Hlook) as [Hall _].
    pose proof (selected_nonneg start end_ _ Hall) as Hsel.
    rewrite <- Hsam in Hsel.
    pose proof (pysum_nonneg _ Hsel) as Hsum.
    assert (0 <= energy m)%Q as Henergy.
    { rewrite Hen. apply Qmult_le_0_compat; [done |]. by unfold POLL_INTERVAL. }
    split_and!; [done | done |].
    rewrite Havg. destruct (Qgt_bool (duration m) 0) eqn:Hpos; [| lra].
    apply Qgt_bool_true in Hpos.
    apply Qle_shift_div_l; [done |]. lra. }
  split; [done |].
  destruct (reachable_inv _ _ _ Hreach) as (_ & _ & (_ & -> & _) & _).
  apply pysum_nonneg. apply Forall_map.
  eapply Forall_impl; [exact Hres |]. by intros r (_ & He & _).
Qed.

(** The sample run: the source reports 5000 mW at every reading. *)
Lemma results_are_not_negative_witness :
  Forall (fun r => Forall (fun p => 0 <= p)%Q (samples r.2)
                   /\ (0 <= energy r.2)%Q
                   /\ (0 <= avg_power r.2)%Q) (results full_state)
  /\ (0 <= total_energy full_state)%Q.
Proof.
  apply (results_are_not_negative
           both_captured [conv; relu] 0%Q full_trace full_state).
  - assert (never_negative five_watts) as Hfive by (vm_compute; discriminate).
    unfold full_trace, unit_run, timed_run, teardown, collect, poll.
    repeat first [ apply Forall_app; split
                 | apply Forall_repeat_same
                 | apply Forall_cons_2
                 | apply Forall_nil_2 ];
      first [ exact I | exact Hfive ].
  - vm_compute. reflexivity.
Defined.

(** ** The metrics exporter (export_power.py, lines 7-13) *)

Lemma export_power_stops rest gauge :
  (forall o, head rest = Some o -> o.1 = false) ->
  export_power rest gauge = gauge.
Proof.
  destruct rest as [| [ok stats] rest]; [done |]. intros Hrest.
  specialize (Hrest (ok, stats) eq_refl). simpl in Hrest. by subst ok.
Qed.

(** X13. The gauge of the exporter shows the watts of the last reading
    taken while the board was ok (0 W when that reading lacks the
    total-power entry); it keeps the value it had when the board is not ok
    at the first test, and nothing the board shows after the first test
    that fails reaches the gauge. *)
Theorem exporter_shows_last_reading_while_ok pre rest gauge :
  Forall (fun o : observation => o.1 = true) pre ->
  (forall o, head rest = Some o -> o.1 = false) ->
  export_power (pre ++ rest) gauge
  = match last pre with
    | Some o => power_of o.2
    | None => gauge
    end.
Proof.
  intros Hpre Hrest. revert gauge.
  induction Hpre as [| [ok stats] pre Hok Hpre IH]; intros gauge.
  - by apply export_power_stops.
  - simpl in Hok. subst ok. simpl. rewrite IH, last_cons.
    by destruct (last pre).
Qed.

(** Two readings while the board is ok, the second without the entry; the
    reading of 7000 mW after the failed test is not exported. *)
Lemma exporter_shows_last_reading_while_ok_witness :
  export_power
    ([(true, {[ "Power TOT" := 5000%Z ]}); (true, ∅)]
     ++ [(false, ∅); (true, {[ "Power TOT" := 7000%Z ]})]) 3%Q
  = match last [(true, {[ "Power TOT" := 5000%Z ]});
                (true, (∅ : gmap string Z))] with
    | Some o => power_of o.2
    | None => 3%Q
    end.
Proof.
  apply (exporter_shows_last_reading_while_ok
           [(true, {[ "Power TOT" := 5000%Z ]}); (true, ∅)]
           [(false, ∅); (true, {[ "Power TOT" := 7000%Z ]})] 3%Q).
  - repeat constructor.
  - intros o Ho. simpl in Ho. by simplify_eq.
Defined.

(** ** The names of the units (line 83) *)

Lemma pretty_N_go_plain x s : plain s -> plain (pretty_N_go x s).
Proof.
  revert s. induction (N.lt_wf_0 x) as [x _ IH]; intros s Hs.
  assert (x = 0 \/ 0 < x)%N as [-> | Hpos] by lia.
  - by rewrite pretty_N_go_0.
  - rewrite pretty_N_go_step by done. apply IH.
    + by apply N.div_lt.
    + split; [| done]. unfold pretty_N_char. by repeat case_match.
Qed.

Lemma pretty_nat_plain (n : nat) : plain (pretty n).
Proof.
  unfold pretty, pretty_nat, pretty, pretty_N.
  case_decide; [by split | by apply pretty_N_go_plain].
Qed.

Lemma plain_no_underscore c d d' : plain d -> d <> c +:+ "_" +:+ d'.
Proof.
  revert d. induction c as [| a c IH]; intros d Hd Heq; subst d.
  - by destruct Hd.
  - destruct Hd as [_ Hd]. by apply (IH _ Hd).
Qed.

Lemma split_at_last_underscore c1 c2 d1 d2 :
  plain d1 -> plain d2 ->
  c1 +:+ "_" +:+ d1 = c2 +:+ "_" +:+ d2 ->
  c1 = c2 /\ d1 = d2.
Proof.
  intros H1 H2. revert c2.
  induction c1 as [| a c1 IH]; intros [| b c2] Heq; simpl in Heq.
  - by simplify_eq.
  - injection Heq as _ Heq. by destruct (plain_no_underscore c2 d1 d2).
  - injection Heq as _ Heq. symmetry in Heq.
    by destruct (plain_no_underscore c1 d2 d1).
  - injection Heq as -> Heq. destruct (IH _ Heq) as [-> ->]. done.
Qed.

Lemma name_of_inj i j l l' :
  name_of i l = name_of j l' -> i = j /\ class_name l = class_name l'.
Proof.
  unfold name_of. intros Heq.
  destruct (split_at_last_underscore _ _ _ _
              (pretty_nat_plain i) (pretty_nat_plain j) Heq) as [Hc Hd].
  split; [by apply (inj pretty) | done].
Qed.

Lemma verdict_names_from inputs i layers name :
  name ∈ map fst (verdicts inputs i layers) ->
  exists j l, (i <= j)%nat /\ name = name_of j l.
Proof.
  revert i. induction layers as [| l layers IH]; intros i Hin; simpl in Hin.
  - by apply elem_of_nil in Hin.
  - apply elem_of_cons in Hin as [-> | Hin]; [by exists i, l |].
    destruct (IH _ Hin) as (j & l' & Hle & ->). exists j, l'. split; [lia | done].
Qed.

Lemma verdict_names_distinct inputs i layers :
  NoDup (map fst (verdicts inputs i layers)).
Proof.
  revert i. induction layers as [| l layers IH]; intros i; simpl.
  - constructor.
  - constructor; [| apply IH]. intros Hin.
    destruct (verdict_names_from _ _ _ _ Hin) as (j & l' & Hle & Heq).
    apply name_of_inj in Heq as [-> _]. lia.
Qed.

Lemma with_fate_distinct f v : NoDup (map fst v) -> NoDup (with_fate f v).
Proof.
  unfold with_fate. induction v as [| x v IH]; simpl; [done |].
  intros Hnd. apply NoDup_cons in Hnd as [Hx Hnd].
  destruct (fate_eqb x.2 f); simpl; [| by apply IH].
  constructor; [| by apply IH]. intros Hin. apply Hx.
  apply list_elem_of_In in Hin. apply list_elem_of_In.
  apply in_map_iff in Hin as (y & Hy & Hin). apply in_map_iff.
  exists y. split; [done |]. by apply filter_In in Hin as [Hin _].
Qed.

(** X14. In every run, no two printed lines (skip, result or failure) name
    the same unit, and no two results have the same name, also when layers
    share their class or a class name ends in an underscore and digits: the
    index after the last underscore tells the units apart. *)
Theorem unit_names_are_distinct inputs layers s :
  reachable inputs layers s ->
  NoDup (printed_names s) /\ NoDup (map fst (results s)).
Proof.
  intros Hreach.
  destruct (reachable_inv _ _ _ Hreach)
    as (_ & _ & _ & _ & (_ & done & Hout & Hres & _) & _).
  unfold printed_names. split.
  - rewrite <- (map_map verdict fst), Hout. apply verdict_names_distinct.
  - rewrite Hres. apply with_fate_distinct, verdict_names_distinct.
Qed.

(** The sample run. *)
Lemma unit_names_are_distinct_witness :
  NoDup (printed_names full_state) /\ NoDup (map fst (results full_state)).
Proof.
  apply (unit_names_are_distinct both_captured [conv; relu] full_state).
  apply run_of_reachable. vm_compute. eexists. reflexivity.
Defined.

(** ** The run can always be completed *)

Lemma reachable_exec inputs layers tr s s' :
  reachable inputs layers s -> exec tr s = Some s' ->
  reachable inputs layers s'.
Proof.
  intros (t0 & tr0 & H0) Hrun. exists t0, (tr0 ++ tr).
  by rewrite exec_app, H0.
Qed.

(** Lines 52-59: the drain loop runs the queue out and the unit is over. *)
Lemma drain_runs_out q :
  forall s j start end_ acc ses,
    pc s = M_drain j start end_ acc ->
    sessions s !! job_session j = Some ses ->
    power_q ses = q ->
    exists s', exec (repeat Main (S (length q))) s = Some s'
               /\ pc s' = M_loop /\ pending s' = pending s.
Proof.
  induction q as [| x q IH]; intros s j start end_ acc ses Hpc Hi Hq.
  - cbn [length repeat exec step]. unfold main_step. rewrite Hpc, Hi.
    cbn [mbind option_bind]. rewrite Hq.
    destruct (summarize_returns start end_ acc) as (m & -> & _).
    eexists. split; [reflexivity |]. done.
  - cbn [length repeat]. change (exec (Main :: ?tr) s)
      with (main_step s ≫= exec tr).
    unfold main_step at 1. rewrite Hpc, Hi. cbn [mbind option_bind].
    rewrite Hq. cbn [mbind option_bind].
    edestruct (IH (goto (M_drain j start end_ (keep start end_ acc x))
                     (with_sessions
                        (<[job_session j := with_queue q ses]> (sessions s))
                        s))
                 j start end_ (keep start end_ acc x) (with_queue q ses))
      as (s' & Hrun & Hpc' & Hpend); [reflexivity | | reflexivity |].
    { simpl. apply list_lookup_insert_eq. by eapply lookup_lt_Some. }
    exists s'. done.
Qed.

Lemma concerns_keep_pending i tr s s' :
  Forall (concerns i) tr -> exec tr s = Some s' -> pending s' = pending s.
Proof.
  revert s. induction tr as [| ev tr IH]; intros s Hall Hrun.
  - simpl in Hrun. by simplify_eq.
  - inversion Hall as [| ? ? Hev Htr]; subst. simpl in Hrun.
    destruct (step ev s) as [s1 |] eqn:E; [| done]. simpl in Hrun.
    rewrite (IH _ Htr Hrun).
    destruct ev as [d | | k src]; simpl in Hev, E; [| done |].
    + destruct (Qle_bool 0 d); by simplify_eq.
    + destruct (sessions s !! k); simpl in E; [| done].
      destruct (logger_step _ _ _); simpl in E; by simplify_eq.
Qed.

Lemma follows_relabel b past tr : follows b past (relabel b past tr).
Proof.
  revert past. induction tr as [| ev tr IH]; intros past; [done |].
  cbn [relabel follows]. split; [by destruct ev | apply IH].
Qed.

Lemma follows_app b past tr1 tr2 :
  follows b past tr1 -> follows b (past ++ tr1) tr2 ->
  follows b past (tr1 ++ tr2).
Proof.
  revert past. induction tr1 as [| ev tr1 IH]; intros past H1 H2.
  - by rewrite app_nil_r in H2.
  - destruct H1 as [Hev H1]. cbn [app follows]. split; [done |].
    apply IH; [done |]. by rewrite <- app_assoc.
Qed.

Lemma follows_main b past n : follows b past (repeat Main n).
Proof.
  revert past. induction n as [| n IH]; intros past; [done |].
  cbn [repeat follows]. split; [done | apply IH].
Qed.

Lemma relabel_concerns i b past tr :
  Forall (concerns i) tr -> Forall (concerns i) (relabel b past tr).
Proof.
  intros Hall. revert past.
  induction Hall as [| ev tr Hev Hall IH]; intros past; [constructor |].
  cbn [relabel]. constructor; [by destruct ev | apply IH].
Qed.

(** A thread that is told to stop comes to its end however the source
    behaves: only its first statement can find the source at all. *)
Ltac thread_on :=
  cbn [wind_down app relabel thread_exec thread_step logger_step logger
         stop_event at_pc put mbind option_bind fst snd].

Lemma wind_down_relabelled_ends i b past t ses :
  stop_event ses = true ->
  exists t' ses',
    thread_exec (relabel b past (wind_down i (b past i) t (logger ses))) t ses
    = Some (t', ses')
    /\ terminated (logger ses') = true.
Proof.
  destruct ses as [st q p enq]. simpl. intros ->.
  assert (Qle_bool 0 POLL_INTERVAL = true) as Hp by reflexivity.
  assert (forall a : Q, Qle_bool (a + POLL_INTERVAL) (a + POLL_INTERVAL) = true)
    as Hsame by (intros a; apply Qle_bool_true; lra).
  destruct p, (b past i) eqn:Hb; thread_on; rewrite ?Hb; thread_on;
    rewrite ?Hp; thread_on; rewrite ?Hsame; thread_on;
    try (by eexists _, _).
  all: destruct (Qle_bool wake t) eqn:Hw;
    [ assert (Qle_bool 0 0 = true) as Hzero by reflexivity;
      thread_on; rewrite ?Hzero; thread_on;
      rewrite (Qle_bool_true wake (t + 0))
        by (apply Qle_bool_iff in Hw; lra)
    | assert (Qle_bool 0 (wake - t) = true) as Hgap
        by (apply Qle_bool_true;
            destruct (Qlt_le_dec t wake) as [H | H];
            [lra | apply Qle_bool_true in H; congruence]);
      thread_on; rewrite ?Hgap; thread_on;
      rewrite (Qle_bool_true wake (t + (wake - t))) by lra ];
    thread_on; by eexists _, _.
Qed.

(** A statement of the main thread outside [join] and the drain loop takes
    it nearer to the end of the loop. *)
Lemma main_step_lowers s s' :
  main_step s = Some s' ->
  (forall j start end_ acc, pc s <> M_drain j start end_ acc) ->
  rank s' < rank s.
Proof.
  intros Hstep Hdrain.
  main_cases Hstep;
    try (by edestruct Hdrain);
    unfold rank; cbn [pc pending goto note advance with_sessions print record];
    match goal with H : pc s = _ |- _ => rewrite H end;
    unfold after_warmup, after_timed, WARMUP, NUM_REPEATS;
    repeat match goal with
           | |- context [(?a <? ?b)%nat] => destruct (Nat.ltb_spec a b)
           end;
    try match goal with H : pending s = _ |- _ => rewrite H end;
    cbn [length]; lia.
Qed.

(** From every state of a run before the export, some statements of the
    main thread and of the thread it waits for, the source behaving as [b]
    makes it, take the main thread nearer to the end of the loop. *)
Lemma main_thread_advances inputs layers s b past :
  reachable inputs layers s -> pc s <> M_export ->
  exists tr s',
    follows b past tr /\ exec tr s = Some s' /\ rank s' < rank s.
Proof.
  intros Hreach Hpc.
  destruct (reachable_inv _ _ _ Hreach) as (_ & Hses & _).
  unfold session_inv in Hses.
  assert ((exists j start end_, pc s = M_join j start end_)
          \/ (exists j start end_ acc, pc s = M_drain j start end_ acc)
          \/ ((forall j start end_, pc s <> M_join j start end_)
              /\ (forall j start end_ acc, pc s <> M_drain j start end_ acc)))
    as [(j & start & end_ & E) | [(j & start & end_ & acc & E) | [Hj Hd]]].
  { destruct (pc s); eauto 8; right; right; done. }
  - (* line 48 *)
    rewrite E in Hses. destruct Hses as (ses & Hi & _ & Hstop).
    destruct (wind_down_relabelled_ends (job_session j) b past (now s) ses
                Hstop) as (t' & ses' & Hrun & Hterm).
    pose proof (relabel_concerns _ b past _
                  (wind_down_concerns (job_session j)
                     (b past (job_session j)) (now s) (logger ses)))
      as Hown.
    destruct (thread_exec_lifts _ _ _ _ _ _ Hown Hi Hrun)
      as (s1 & Hs1 & Hpc1 & _ & Hi1).
    pose proof (concerns_keep_pending _ _ _ _ Hown Hs1) as Hpend1.
    destruct (drain_runs_out (power_q ses')
                (goto (M_drain j start end_ []) s1) j start end_ [] ses'
                eq_refl Hi1 eq_refl) as (s3 & Hs3 & Hpc3 & Hpend3).
    exists (relabel b past
              (wind_down (job_session j) (b past (job_session j)) (now s)
                 (logger ses))
            ++ [Main] ++ repeat Main (S (length (power_q ses')))), s3.
    split_and!.
    + apply follows_app; [apply follows_relabel |].
      apply (follows_main b _ (S (S (length (power_q ses'))))).
    + rewrite exec_app, Hs1. cbn [mbind option_bind].
      rewrite exec_app. cbn [exec step]. unfold main_step.
      rewrite Hpc1, E, Hi1. cbn [mbind option_bind]. rewrite Hterm.
      exact Hs3.
    + unfold rank. rewrite Hpc3, E, Hpend3. simpl. rewrite Hpend1. lia.
  - (* lines 52-59 *)
    rewrite E in Hses. destruct Hses as (ses & got & Hi & _).
    destruct (drain_runs_out (power_q ses) s j start end_ acc ses E Hi eq_refl)
      as (s3 & Hs3 & Hpc3 & Hpend3).
    exists (repeat Main (S (length (power_q ses)))), s3. split_and!.
    + apply follows_main.
    + done.
    + unfold rank. rewrite Hpc3, E, Hpend3. lia.
  - destruct (main_thread_moves _ _ _ Hreach Hpc) as [s1 Hs1].
    { intros j start end_ ses E. by destruct (Hj j start end_). }
    exists [Main], s1. split_and!.
    + apply (follows_main b past 1).
    + cbn [exec]. rewrite Hs1. done.
    + by apply main_step_lowers.
Qed.

Lemma run_completes_from inputs layers b n :
  forall s past,
    rank s = n -> reachable inputs layers s ->
    exists tr s',
      follows b past tr /\ exec tr s = Some s' /\ pc s' = M_export.
Proof.
  induction n as [n IH] using lt_wf_ind. intros s past Hn Hreach.
  assert (pc s = M_export \/ pc s <> M_export) as [Hpc | Hpc]
    by (destruct (pc s); (by left) || (by right)).
  - exists [], s. done.
  - destruct (main_thread_advances _ _ _ b past Hreach Hpc)
      as (tr1 & s1 & Hsrc1 & Hrun1 & Hlt).
    destruct (IH (rank s1) ltac:(lia) s1 (past ++ tr1) eq_refl
                (reachable_exec _ _ _ _ _ Hreach Hrun1))
      as (tr2 & s2 & Hsrc2 & Hrun2 & Hpc2).
    exists (tr1 ++ tr2), s2. split_and!; [| | done].
    + by apply follows_app.
    + by rewrite exec_app, Hrun1.
Qed.

(** X15. Every run can be completed: from every state of every run, and
    however the power source behaves from then on (its behaviour at each
    statement of a thread may depend on the thread and on everything that
    happened before, so it may open for one unit and fail for the next, or
    fail in the middle of a unit), there are statements of the threads
    that find the source as it behaves and take the main thread to the end
    of the loop over the layers; by then one line has been printed for
    each layer, in the order of the list. *)
Theorem run_can_always_be_completed inputs layers s (b : behaviour) :
  reachable inputs layers s ->
  exists tr s',
    follows b [] tr
    /\ exec tr s = Some s'
    /\ pc s' = M_export
    /\ map verdict (stdout s') = verdicts inputs 0 layers.
Proof.
  intros Hreach.
  destruct (run_completes_from inputs layers b (rank s) s [] eq_refl Hreach)
    as (tr & s' & Hsrc & Hrun & Hpc).
  exists tr, s'. split_and!; try done.
  by destruct (export_account _ _ _ (reachable_exec _ _ _ _ _ Hreach Hrun) Hpc).
Qed.

(** The first unit of the sample run at line 48, its thread still in its
    loop, and a source that reads 5000 mW for the first thread and cannot
    be opened by any other. *)
Lemma run_can_always_be_completed_witness :
  exists tr s',
    follows (fun _ i => match i with 0 => five_watts | _ => Unavailable end)
      [] tr
    /\ exec tr waiting_state = Some s'
    /\ pc s' = M_export
    /\ map verdict (stdout s') = verdicts both_captured 0 [conv; relu].
Proof.
  apply (run_can_always_be_completed both_captured [conv; relu]
           waiting_state
           (fun _ i => match i with 0 => five_watts | _ => Unavailable end)).
  apply run_of_reachable. vm_compute. eexists. reflexivity.
Defined.

(** ** The threads started (lines 31-34, 84-87) *)

Lemma threads_step ev s s' :
  threads_inv s -> step ev s = Some s' -> threads_inv s'.
Proof.
  unfold threads_inv, units_started. intros [Hn Hj] Hstep.
  destruct ev as [d | | i src]; simpl in Hstep.
  - destruct (Qle_bool 0 d); by simplify_eq.
  - main_cases Hstep;
      cbn [pc sessions stdout goto note advance with_sessions print record];
      rewrite ?map_app, ?length_app, ?length_insert; cbn [map verdict];
      rewrite ?with_fate_snoc, ?length_app; cbn [fate_eqb length];
      repeat match goal with
             | |- context [progress (after_warmup ?j ?k)] =>
                 let n := fresh "n" in
                 let E := fresh "E" in
                 destruct (progress_after_warmup_job j k) as [n E];
                 rewrite E
             | |- context [progress (after_timed ?j ?t ?k)] =>
                 let n := fresh "n" in
                 let E := fresh "E" in
                 destruct (progress_after_timed_job j t k) as [n E];
                 rewrite E
             end;
      match goal with H : pc s = _ |- _ => rewrite ?H end;
      cbn [progress] in *;
      (split; [try lia | intros j' n' Hp; simplify_eq; cbn [job_session];
                         try lia; try (by eapply Hj)]).
  - destruct (sessions s !! i); simpl in Hstep; [| done].
    destruct (logger_step _ _ _); simpl in Hstep; simplify_eq.
    simpl. by rewrite length_insert.
Qed.

Lemma reachable_threads inputs layers s :
  reachable inputs layers s -> threads_inv s.
Proof.
  apply reachable_invariant.
  - intros t0. split; [reflexivity | done].
  - intros ev s1 s2. apply threads_step.
Qed.

(** X16. In every run, the number of sampler threads started so far is the
    number of result lines and failure lines printed so far, plus one while
    a unit is being measured, whose session is the newest: a layer that
    fails has started a thread, a skipped layer has started none.  Once the
    loop is over there are as many threads as layers with a captured
    input. *)
Theorem one_thread_per_unit_entered inputs layers s :
  reachable inputs layers s ->
  length (sessions s) = units_started s
  /\ (forall j n, progress (pc s) = Some (j, n) ->
                  S (job_session j) = length (sessions s))
  /\ (pc s = M_export ->
      length (sessions s)
      = length layers - length (with_fate Skipped (verdicts inputs 0 layers))).
Proof.
  intros Hreach. destruct (reachable_threads _ _ _ Hreach) as [Hn Hj].
  split_and!; [done | done |]. intros Hpc.
  destruct (export_account _ _ _ Hreach Hpc) as [Hout _].
  rewrite Hn. unfold units_started. rewrite Hpc, Hout. simpl.
  pose proof (fates_partition (verdicts inputs 0 layers)) as Hpart.
  rewrite verdicts_length in Hpart. lia.
Qed.

(** The run in which the first layer raises in its warm-up and the next
    unit starts: two threads, one failure line and the unit under way. *)
Lemma one_thread_per_unit_entered_witness :
  length (sessions leaking_state) = units_started leaking_state
  /\ (forall j n, progress (pc leaking_state) = Some (j, n) ->
                  S (job_session j) = length (sessions leaking_state))
  /\ (pc leaking_state = M_export ->
      length (sessions leaking_state)
      = length [broken; relu]
        - length (with_fate Skipped
                    (verdicts both_captured 0 [broken; relu]))).
Proof.
  apply (one_thread_per_unit_entered both_captured [broken; relu]
           leaking_state).
  apply run_of_reachable. vm_compute. eexists. reflexivity.
Defined.

(** ** The loop over the layers after the forward pass (lines 82-95) *)







